(** * WavAudioPlayer: option dispatch, playback session and shutdown

    A shallow embedding of [src/main.cpp].  The program is a sequence of
    calls on process-wide variables and on the collaborators of the audio
    engine (device manager, file manager, track manager, engine thread,
    logger).  It is modelled as a state-and-halt monad over a [State] that
    holds the four globals, the installed handlers and the chronological
    list of observable effects.  The collaborators are not part of this
    repository: their answers are the fields of a [Collaborators] record,
    and the asynchronous arrivals (SIGINT, track events) together with the
    answers of [engine.is_running()] form a [Schedule]. *)

From Stdlib Require Import ZArith List String Ascii Bool Lia DecimalString.
From Stdlib Require Import RelationClasses.
Import ListNotations.

Local Open Scope Z_scope.
Local Open Scope string_scope.
Local Open Scope list_scope.

(** ** Data of the collaborators *)

Record AudioDevice := mkAudioDevice {
  id : Z;                       (* unsigned int *)
  name : string;
  input_channels : Z;
  output_channels : Z
}.

(** An opaque handle on a decoded WAV file. *)
Inductive WavFile := WavHandle (h : nat).

Inductive eTrackEvent :=
| PlaybackFinished
| OtherTrackEvent (code : Z).

Inductive Level := INFO | ERROR.

(** What arrives asynchronously: the interrupt signal, or an event of the
    track delivered from the engine's context. *)
Inductive Async :=
| SIGINT
| TrackEvent (ev : eTrackEvent).

(** ** Observable effects, in the order the process performs them *)

Inductive Effect :=
| Stdout (text : string)
| Stderr (text : string)
| Log (lvl : Level) (msg : string)
| WriteRunning (b : bool)            (* running = b *)
| ReadRunning (b : bool)             (* the loop's read of running *)
| SignalInstall                      (* std::signal(SIGINT, ...) *)
| EngineStartThread
| EngineIsRunning (b : bool)         (* engine.is_running() answered b *)
| EngineStopThread
| AddTrack
| TrackAddAudioDeviceOutput (d : AudioDevice)
| TrackAddAudioFileInput (w : WavFile)
| TrackSetEventCallback
| TrackPlay
| TrackStop
| SleepFor (ms : Z).

(** ** Process state: the globals of main.cpp, the handlers, the effects *)

Record State := mkState {
  program_name : string;
  running : bool;
  input_file_path : option string;
  audio_output_device_id : option Z;
  sigint_handler_installed : bool;
  event_callback_installed : bool;
  trace : list Effect
}.

(** The static initialisers of lines 29-32. *)
Definition initial_state : State :=
  mkState "" true None None false false [].

Inductive Exception := invalid_argument | out_of_range.

(** How a run stops. *)
Inductive Stop :=
| Exited (status : Z)        (* std::exit(status) *)
| Returned (status : Z)      (* return status; from main *)
| Uncaught (e : Exception)   (* an exception nobody catches: std::terminate *)
| Undefined                  (* undefined behaviour *)
| Killed                     (* SIGINT with the default disposition *)
| Polling.                   (* the schedule ended inside the poll loop *)

Inductive Result (A : Type) :=
| Next (a : A) (s : State)
| Halt (h : Stop) (s : State).
Arguments Next {A} a s.
Arguments Halt {A} h s.

Definition M (A : Type) := State -> Result A.

Definition ret {A} (a : A) : M A := fun s => Next a s.

Definition bind {A B} (m : M A) (k : A -> M B) : M B :=
  fun s => match m s with
           | Next a s' => k a s'
           | Halt h s' => Halt h s'
           end.

Definition halt {A} (h : Stop) : M A := fun s => Halt h s.

Declare Scope prog_scope.
Delimit Scope prog_scope with prog.
Notation "x <- m ;; k" := (bind m (fun x => k))
  (at level 61, m at next level, right associativity) : prog_scope.
Notation "m ;; k" := (bind m (fun _ => k))
  (at level 61, right associativity) : prog_scope.
Local Open Scope prog_scope.

Definition final {A} (r : Result A) : State :=
  match r with Next _ s => s | Halt _ s => s end.

(** *** Primitive steps *)

Definition emit (e : Effect) : M unit :=
  fun s => Next tt (mkState (program_name s) (running s) (input_file_path s)
                            (audio_output_device_id s)
                            (sigint_handler_installed s)
                            (event_callback_installed s)
                            (trace s ++ [e])).

Definition get {A} (f : State -> A) : M A := fun s => Next (f s) s.

Definition set_program_name (p : string) : M unit :=
  fun s => Next tt (mkState p (running s) (input_file_path s)
                            (audio_output_device_id s)
                            (sigint_handler_installed s)
                            (event_callback_installed s) (trace s)).

Definition set_input_file_path (p : string) : M unit :=
  fun s => Next tt (mkState (program_name s) (running s) (Some p)
                            (audio_output_device_id s)
                            (sigint_handler_installed s)
                            (event_callback_installed s) (trace s)).

Definition set_audio_output_device_id (d : Z) : M unit :=
  fun s => Next tt (mkState (program_name s) (running s) (input_file_path s)
                            (Some d)
                            (sigint_handler_installed s)
                            (event_callback_installed s) (trace s)).

(** [running = b;] the store and its record in the trace. *)
Definition write_running (b : bool) : M unit :=
  fun s => Next tt (mkState (program_name s) b (input_file_path s)
                            (audio_output_device_id s)
                            (sigint_handler_installed s)
                            (event_callback_installed s)
                            (trace s ++ [WriteRunning b])).

Definition read_running : M bool :=
  fun s => Next (running s)
                (mkState (program_name s) (running s) (input_file_path s)
                         (audio_output_device_id s)
                         (sigint_handler_installed s)
                         (event_callback_installed s)
                         (trace s ++ [ReadRunning (running s)])).

Definition install_sigint_handler : M unit :=
  fun s => Next tt (mkState (program_name s) (running s) (input_file_path s)
                            (audio_output_device_id s) true
                            (event_callback_installed s)
                            (trace s ++ [SignalInstall])).

Definition install_event_callback : M unit :=
  fun s => Next tt (mkState (program_name s) (running s) (input_file_path s)
                            (audio_output_device_id s)
                            (sigint_handler_installed s) true
                            (trace s ++ [TrackSetEventCallback])).

Definition LOG_INFO (msg : string) : M unit := emit (Log INFO msg).
Definition LOG_ERROR (msg : string) : M unit := emit (Log ERROR msg).
Definition cout (text : string) : M unit := emit (Stdout text).
Definition cerr (text : string) : M unit := emit (Stderr text).
Definition std_exit {A} (status : Z) : M A := halt (Exited status).

(** ** Library functions the options use *)

Definition VERSION_NUMBER : string := "1.0.0".

(** Decimal text of a number, as [operator<<] prints it. *)
Definition dec (z : Z) : string := NilZero.string_of_int (Z.to_int z).

Definition isspace (c : ascii) : bool :=
  let n := nat_of_ascii c in
  (Nat.eqb n 32 || Nat.eqb n 9 || Nat.eqb n 10 || Nat.eqb n 11
   || Nat.eqb n 12 || Nat.eqb n 13)%bool.

Definition digit_value (c : ascii) : option Z :=
  let n := Z.of_nat (nat_of_ascii c) in
  if ((48 <=? n)%Z && (n <=? 57)%Z)%bool then Some (n - 48) else None.

Fixpoint skip_spaces (s : string) : string :=
  match s with
  | String c rest => if isspace c then skip_spaces rest else s
  | EmptyString => s
  end.

(** The digits at the head of [s], accumulated in base ten; the flag tells
    whether there was at least one. *)
Fixpoint read_digits (s : string) (acc : Z) (seen : bool) : Z * bool :=
  match s with
  | String c rest =>
      match digit_value c with
      | Some d => read_digits rest (10 * acc + d) true
      | None => (acc, seen)
      end
  | EmptyString => (acc, seen)
  end.

Definition INT_MIN : Z := - 2 ^ 31.
Definition INT_MAX : Z := 2 ^ 31 - 1.

(** [std::stoi(str)]: leading white space, an optional sign, decimal digits;
    [invalid_argument] without a digit, [out_of_range] outside [int]. *)
Definition stoi (str : string) : Exception + Z :=
  let s1 := skip_spaces str in
  let '(neg, s2) :=
    match s1 with
    | String "-"%char rest => (true, rest)
    | String "+"%char rest => (false, rest)
    | _ => (false, s1)
    end in
  let '(v, seen) := read_digits s2 0 false in
  if negb seen then inl invalid_argument
  else let v' := if neg then - v else v in
       if ((INT_MIN <=? v')%Z && (v' <=? INT_MAX)%Z)%bool then inr v'
       else inl out_of_range.

(** Conversion of an [int] to [unsigned int]. *)
Definition to_unsigned (v : Z) : Z := v mod 2 ^ 32.

(** The exit status the parent observes: the low eight bits. *)
Definition exit_status (code : Z) : Z := code mod 256.

Definition nl : string := String (ascii_of_nat 10) EmptyString.
Definition tab : string := String (ascii_of_nat 9) EmptyString.

(** [std::string(arg)] for a [const char *]: a null pointer is undefined
    behaviour. *)
Definition std_string (arg : option string) : M string :=
  match arg with
  | Some a => ret a
  | None => halt Undefined
  end.

(** ** The collaborators and the schedule *)

(** [get_audio_device] answers a device, not an optional one: line 56 reads
    the [id] of its result directly, and line 149 converts it to the optional
    type of [get_default_audio_output_device].  A failed lookup shows, as in
    line 56, by a device whose id is not the one asked for. *)
Record Collaborators := mkCollaborators {
  get_audio_devices : list AudioDevice;
  get_audio_device : Z -> AudioDevice;
  get_default_audio_output_device : option AudioDevice;
  to_string : AudioDevice -> string;
  is_wav_file : string -> bool;
  read_wav_file : string -> option WavFile;
  (* whether get_track(add_track()) is a non-null track *)
  get_track : bool
}.

(** One turn of the poll loop: the answer of [engine.is_running()], what
    arrives between that test and the read of [running], and what arrives
    during the sleep. *)
Record Tick := mkTick {
  is_running : bool;
  before_flag_read : list Async;
  during_sleep : list Async
}.

Record Schedule := mkSchedule {
  after_signal_install : list Async;   (* between lines 138 and 141 *)
  after_play : list Async;             (* between lines 178 and 181 *)
  ticks : list Tick
}.

(** ** The option table *)

Record Command := mkCommand {
  argument : string;
  argument_short : string;
  description : string;
  action : option string -> M unit
}.

(** The three strings of each entry, in the order of the table; [help]
    prints them. *)
Definition option_table : list (string * string * string) :=
  [ ("--help", "-h", "Show help message");
    ("--version", "-v", "Show version information");
    ("--input-file", "-i", "Specify input WAV file");
    ("--list-audio-devices", "-ld", "List available audio devices");
    ("--set-audio-output", "-o", "Specify audio output device by ID") ].

Fixpoint for_each {A} (l : list A) (body : A -> M unit) : M unit :=
  match l with
  | [] => ret tt
  | x :: rest => body x ;; for_each rest body
  end.

Definition help (arg : option string) : M unit :=
  cout ("WavAudioPlayer - A simple WAV audio player using Minimal Audio Engine" ++ nl) ;;
  p <- get program_name ;;
  cout ("Usage: " ++ p ++ " [options]" ++ nl ++ nl) ;;
  cout ("Options:" ++ nl) ;;
  for_each option_table (fun '(long, short, desc) =>
    cout ("  " ++ long ++ ", " ++ short ++ tab ++ desc ++ nl)) ;;
  cout nl ;;
  std_exit 0.

Section Program.

Variable env : Collaborators.

Definition version_action (arg : option string) : M unit :=
  cout ("WavAudioPlayer Version " ++ VERSION_NUMBER ++ nl) ;;
  std_exit 0.

Definition input_file_action (arg : option string) : M unit :=
  a <- std_string arg ;;
  set_input_file_path a.

Definition list_audio_devices_action (arg : option string) : M unit :=
  cout ("Available Audio Devices:" ++ nl) ;;
  for_each (get_audio_devices env) (fun device =>
    cout ("  ID: " ++ dec (id device) ++ ", Name: " ++ name device
          ++ ", (Input Channels: " ++ dec (input_channels device)
          ++ ", Output Channels: " ++ dec (output_channels device)
          ++ ")" ++ nl)) ;;
  std_exit 0.

Definition no_device_message (device_id : Z) : string :=
  "Error: No audio device found with ID " ++ dec device_id ++ "." ++ nl.

Definition set_audio_output_action (arg : option string) : M unit :=
  a <- std_string arg ;;
  v <- match stoi a with
       | inr v => ret v
       | inl e => halt (Uncaught e)
       end ;;
  let device_id := to_unsigned v in
  let audio_device := get_audio_device env device_id in
  if negb (id audio_device =? device_id)%Z then
    cerr (no_device_message device_id) ;;
    std_exit 1
  else
    cout ("Selected Audio Output Device: " ++ to_string env audio_device ++ nl) ;;
    set_audio_output_device_id device_id.

Definition commands : list Command :=
  [ mkCommand "--help" "-h" "Show help message" help;
    mkCommand "--version" "-v" "Show version information" version_action;
    mkCommand "--input-file" "-i" "Specify input WAV file" input_file_action;
    mkCommand "--list-audio-devices" "-ld" "List available audio devices"
              list_audio_devices_action;
    mkCommand "--set-audio-output" "-o" "Specify audio output device by ID"
              set_audio_output_action ].

(** [strcmp(arg, argument) == 0 || strcmp(arg, argument_short) == 0] *)
Definition matches (arg : string) (c : Command) : bool :=
  ((arg =? argument c)%string || (arg =? argument_short c)%string)%bool.

(** The inner loop over the table: the first matching entry runs, then
    [break]. *)
Fixpoint dispatch (cmds : list Command) (arg : string) (next : option string)
  : M unit :=
  match cmds with
  | [] => ret tt
  | c :: rest =>
      if matches arg c then action c next
      else dispatch rest arg next
  end.

(** The body of the outer loop at index [i]: [argv[i + 1]] when
    [i + 1 < argc], a null pointer otherwise. *)
Definition scan_at (argv : list string) (i : nat) : M unit :=
  match nth_error argv i with
  | Some arg => dispatch commands arg (nth_error argv (i + 1))
  | None => ret tt
  end.

(** [count] turns of [for (...; ++i)] starting at index [i]. *)
Fixpoint scan (argv : list string) (i count : nat) : M unit :=
  match count with
  | O => ret tt
  | S c => scan_at argv i ;; scan argv (S i) c
  end.

Definition parse_command_line_arguments (argv : list string) : M unit :=
  if (List.length argv <? 2)%nat then
    help (nth_error argv 0)
  else
    set_program_name (nth 0 argv "") ;;
    scan argv 1 (List.length argv - 1).

(** ** Asynchronous handlers *)

(** The lambda given to [std::signal] (lines 135-138). *)
Definition sigint_handler : M unit :=
  LOG_INFO "SIGINT received, shutting down..." ;;
  write_running false.

(** The lambda given to [set_event_callback] (lines 170-175). *)
Definition track_event_callback (event : eTrackEvent) : M unit :=
  match event with
  | PlaybackFinished =>
      LOG_INFO "Track playback finished." ;;
      write_running false
  | OtherTrackEvent _ => ret tt
  end.

(** One arrival.  A SIGINT before the handler is installed has its default
    disposition; a track event without a callback is dropped. *)
Definition deliver (a : Async) : M unit :=
  match a with
  | SIGINT =>
      h <- get sigint_handler_installed ;;
      if h then sigint_handler else halt Killed
  | TrackEvent ev =>
      c <- get event_callback_installed ;;
      if c then track_event_callback ev else ret tt
  end.

Definition deliver_all (arrivals : list Async) : M unit :=
  for_each arrivals deliver.

(** ** The session *)

(** Lines 122-131: the guard on the input file. *)
Definition check_input_file : M string :=
  path <- get input_file_path ;;
  match path with
  | Some p =>
      if negb (is_wav_file env p) then
        LOG_ERROR ("Specified input file is not a valid WAV file: " ++ p) ;;
        halt (Returned (-1))
      else
        LOG_INFO ("WAV file to be played: " ++ p) ;;
        ret p
  | None =>
      LOG_INFO "No input file specified. Exiting." ;;
      halt (Returned 0)
  end.

(** Lines 133-178: engine thread, handler, track, bindings, play. *)
Definition start_playback (sched : Schedule) (p : string) : M unit :=
  emit EngineStartThread ;;
  install_sigint_handler ;;
  deliver_all (after_signal_install sched) ;;
  emit AddTrack ;;
  (if negb (get_track env) then
     LOG_ERROR "Failed to create track." ;;
     halt (Returned (-1))
   else ret tt) ;;
  dev_id <- get audio_output_device_id ;;
  let audio_output :=
    match dev_id with
    | Some i => Some (get_audio_device env i)
    | None => get_default_audio_output_device env
    end in
  match audio_output with
  | Some d =>
      emit (TrackAddAudioDeviceOutput d) ;;
      LOG_INFO ("Set audio output device: " ++ to_string env d)
  | None =>
      LOG_ERROR "No default audio output device found."
  end ;;
  match read_wav_file env p with
  | Some w =>
      emit (TrackAddAudioFileInput w) ;;
      LOG_INFO ("Set WAV file as audio input: " ++ p)
  | None =>
      LOG_ERROR ("Failed to read WAV file: " ++ p) ;;
      halt (Returned (-1))
  end ;;
  install_event_callback ;;
  emit TrackPlay.

(** Lines 181-190: the main application loop, one [Tick] per turn. *)
Fixpoint poll_loop (ts : list Tick) : M unit :=
  match ts with
  | [] => halt Polling
  | t :: rest =>
      emit (EngineIsRunning (is_running t)) ;;
      if is_running t then
        deliver_all (before_flag_read t) ;;
        r <- read_running ;;
        if negb r then
          LOG_INFO "Shutting down engine..." ;;
          emit TrackStop ;;
          emit EngineStopThread          (* break *)
        else
          emit (SleepFor 100) ;;
          deliver_all (during_sleep t) ;;
          poll_loop rest
      else ret tt
  end.

(** Lines 111-178: everything [main] does before its loop. *)
Definition session_setup (sched : Schedule) (argv : list string) : M unit :=
  parse_command_line_arguments argv ;;
  LOG_INFO "Initializing WavAudioPlayer..." ;;
  p <- check_input_file ;;
  start_playback sched p ;;
  deliver_all (after_play sched).

Definition main_body (sched : Schedule) (argv : list string) : M unit :=
  session_setup sched argv ;;
  poll_loop (ticks sched) ;;
  halt (Returned 0).

(** The process: [main] run from the static initialisers. *)
Definition main (sched : Schedule) (argv : list string) : Stop * State :=
  match main_body sched argv initial_state with
  | Halt h s => (h, s)
  | Next _ s => (Returned 0, s)
  end.

End Program.

(** * Vocabulary of the statements *)

(** ** What a step may add to a state *)

Definition is_flag_write (e : Effect) : bool :=
  match e with WriteRunning _ => true | _ => false end.

(** [extends P s s']: [s'] is [s] after some effects that all satisfy [P];
    the flag is still true exactly when it was true and none of the new
    effects is a write of it; an installed handler stays installed. *)
Inductive extends (P : Effect -> Prop) (s s' : State) : Prop :=
| extends_by (d : list Effect) :
    trace s' = trace s ++ d ->
    Forall P d ->
    running s' = (running s && negb (existsb is_flag_write d))%bool ->
    (sigint_handler_installed s = true -> sigint_handler_installed s' = true) ->
    (event_callback_installed s = true -> event_callback_installed s' = true) ->
    extends P s s'.

(** [follows R m]: the state [m] stops in is related by [R] to the state it
    started from, whether [m] returns or halts. *)
Definition follows {A} (R : State -> State -> Prop) (m : M A) : Prop :=
  forall s, R s (final (m s)).

Abbreviation respects P := (follows (extends P)).

(** [keeps f]: the component [f] of the state is unchanged. *)
Definition keeps {B} (f : State -> B) : State -> State -> Prop :=
  fun s s' => f s' = f s.

(** Number of changes of value of the flag along a trace, from the value
    [cur]. *)
Fixpoint flag_transitions (cur : bool) (tr : list Effect) : nat :=
  match tr with
  | [] => 0
  | WriteRunning b :: rest =>
      ((if Bool.eqb b cur then 0 else 1) + flag_transitions b rest)%nat
  | _ :: rest => flag_transitions cur rest
  end.

Definition writes_false (e : Effect) : Prop := e <> WriteRunning true.

(** The line a trigger handler logs when it runs: the interrupt handler's
    (line 136) or the playback-finished callback's (line 172). *)
Definition is_handler_log (e : Effect) : bool :=
  match e with
  | Log INFO m =>
      ((m =? "SIGINT received, shutting down...")%string
       || (m =? "Track playback finished.")%string)%bool
  | _ => false
  end.

(** What a run of a handler adds to the trace: its line, then the write. *)
Definition handler_run (m : string) : list Effect :=
  [Log INFO m; WriteRunning false].

(** The effects that concern the flag: its writes and the handler lines. *)
Definition is_flag_event (e : Effect) : bool :=
  (is_flag_write e || is_handler_log e)%bool.

(** [written_by_handlers d]: the flag events of [d] are a sequence of
    handler runs, each handler line directly followed by one write of
    false; nothing else writes the flag. *)
Definition written_by_handlers (d : list Effect) : Prop :=
  exists ms,
    Forall (fun m => is_handler_log (Log INFO m) = true) ms
    /\ filter is_flag_event d = flat_map handler_run ms.

(** [handlers_write s s']: the effects added from [s] to [s'] are
    [written_by_handlers]. *)
Definition handlers_write (s s' : State) : Prop :=
  exists d, trace s' = trace s ++ d /\ written_by_handlers d.


(** ** Arrivals, in closed form *)

(** What one arrival adds to the trace, given whether the track's callback
    is installed (the interrupt handler being installed). *)
Definition handler_effects (cb : bool) (a : Async) : list Effect :=
  match a with
  | SIGINT => [Log INFO "SIGINT received, shutting down..."; WriteRunning false]
  | TrackEvent PlaybackFinished =>
      if cb then [Log INFO "Track playback finished."; WriteRunning false]
      else []
  | TrackEvent (OtherTrackEvent _) => []
  end.

(** Whether the arrival is a shutdown trigger. *)
Definition fires (cb : bool) (a : Async) : bool :=
  match a with
  | SIGINT => true
  | TrackEvent PlaybackFinished => cb
  | TrackEvent (OtherTrackEvent _) => false
  end.

Definition after_arrivals (arrivals : list Async) (s : State) : State :=
  mkState (program_name s)
          (running s
           && negb (existsb (fires (event_callback_installed s)) arrivals))
          (input_file_path s) (audio_output_device_id s)
          (sigint_handler_installed s) (event_callback_installed s)
          (trace s
           ++ flat_map (handler_effects (event_callback_installed s)) arrivals).

(** ** Teardown *)

Definition is_teardown (e : Effect) : bool :=
  match e with TrackStop | EngineStopThread => true | _ => false end.

Definition is_flag_seen_false (e : Effect) : bool :=
  match e with ReadRunning false => true | _ => false end.

Definition is_engine_seen_down (e : Effect) : bool :=
  match e with EngineIsRunning false => true | _ => false end.

(** The two teardown calls of a trace, in the order they were made. *)
Definition teardown_calls (tr : list Effect) : list Effect :=
  filter is_teardown tr.

(** The loop read the flag as false. *)
Definition flag_seen_false (tr : list Effect) : bool :=
  existsb is_flag_seen_false tr.

(** [engine.is_running()] answered false. *)
Definition engine_seen_down (tr : list Effect) : bool :=
  existsb is_engine_seen_down tr.

(** Lines 182-186, from the read of the flag to [break]. *)
Definition shutdown_sequence : list Effect :=
  [ReadRunning false; Log INFO "Shutting down engine..."; TrackStop;
   EngineStopThread].

(** Effects that are neither a teardown call nor one of the two
    observations that end the loop. *)
Definition quiet (e : Effect) : Prop :=
  is_teardown e = false /\ is_flag_seen_false e = false
  /\ is_engine_seen_down e = false.

(** The order claimed of every shutdown path: a call to stop transport,
    later a call to stop the engine thread. *)
Definition stop_transport_precedes_stop_engine (tr : list Effect) : Prop :=
  exists pre mid post, tr = pre ++ TrackStop :: mid ++ EngineStopThread :: post.

(** How the loop was left. *)
Inductive LoopExit := ByFlag | ByEngine | StillPolling.

Definition exit_effects (x : LoopExit) : list Effect :=
  match x with
  | ByFlag => shutdown_sequence
  | ByEngine => [EngineIsRunning false]
  | StillPolling => []
  end.

Definition exit_result (x : LoopExit) (s : State) : Result unit :=
  match x with
  | StillPolling => Halt Polling s
  | _ => Next tt s
  end.

(** ** The session, in closed form *)

(** Lines 149-155: what binding the output device adds to the trace. *)
Definition output_binding (env : Collaborators) (dev_id : option Z)
  : list Effect :=
  match match dev_id with
        | Some i => Some (get_audio_device env i)
        | None => get_default_audio_output_device env
        end with
  | Some d => [TrackAddAudioDeviceOutput d;
               Log INFO ("Set audio output device: " ++ to_string env d)]
  | None => [Log ERROR "No default audio output device found."]
  end.

(** Lines 133-141, up to [add_track()]. *)
Definition track_requested (sched : Schedule) (s : State) : State :=
  mkState (program_name s)
          (running s
           && negb (existsb (fires (event_callback_installed s))
                            (after_signal_install sched)))
          (input_file_path s) (audio_output_device_id s)
          true (event_callback_installed s)
          (trace s ++ [EngineStartThread; SignalInstall]
           ++ flat_map (handler_effects (event_callback_installed s))
                       (after_signal_install sched)
           ++ [AddTrack]).

Definition add_effects (d : list Effect) (s : State) : State :=
  mkState (program_name s) (running s) (input_file_path s)
          (audio_output_device_id s) (sigint_handler_installed s)
          (event_callback_installed s) (trace s ++ d).

Definition with_event_callback (s : State) : State :=
  mkState (program_name s) (running s) (input_file_path s)
          (audio_output_device_id s) (sigint_handler_installed s)
          true (trace s).

(** The state right after [track->play()] when the track exists and the
    file was read as [w]. *)
Definition playing (env : Collaborators) (sched : Schedule) (p : string)
    (w : WavFile) (s : State) : State :=
  add_effects [TrackPlay]
    (with_event_callback
       (add_effects
          (output_binding env (audio_output_device_id s)
           ++ [TrackAddAudioFileInput w;
               Log INFO ("Set WAV file as audio input: " ++ p);
               TrackSetEventCallback])
          (track_requested sched s))).

(** ** Concrete collaborators and schedules for the examples *)

Definition speakers : AudioDevice := mkAudioDevice 0 "Speakers" 0 2.

(** One device, of id 0, which is also the default output; one readable
    WAV file, "valid.wav"; track creation succeeds. *)
Definition demo_env : Collaborators :=
  mkCollaborators [speakers] (fun _ => speakers) (Some speakers) name
                  (fun p => (p =? "valid.wav")%string)
                  (fun p => if (p =? "valid.wav")%string
                            then Some (WavHandle 0) else None)
                  true.

(** As [demo_env], without a default output device. *)
Definition demo_env_no_default : Collaborators :=
  mkCollaborators [speakers] (fun _ => speakers) None name
                  (fun p => (p =? "valid.wav")%string)
                  (fun p => if (p =? "valid.wav")%string
                            then Some (WavHandle 0) else None)
                  true.

(** As [demo_env], with [get_track] answering a null track. *)
Definition demo_env_no_track : Collaborators :=
  mkCollaborators [speakers] (fun _ => speakers) (Some speakers) name
                  (fun p => (p =? "valid.wav")%string)
                  (fun p => if (p =? "valid.wav")%string
                            then Some (WavHandle 0) else None)
                  false.

(** The engine never reports itself running. *)
Definition sched_engine_down : Schedule :=
  mkSchedule [] [] [mkTick false [] []].

(** Playback finishes during the first sleep, an interrupt arrives before
    the next read of the flag. *)
Definition sched_finished_then_sigint : Schedule :=
  mkSchedule [] []
    [mkTick true [] [TrackEvent PlaybackFinished]; mkTick true [SIGINT] []].

(** ** The option scan *)

(** The state in which the scan starts at index 1: the initial state with
    [program_name = argv[0]] (line 87). *)
Definition scan_start (argv : list string) : State :=
  mkState (nth 0 argv "") true None None false false [].

(** What the option scan may print. *)
Definition console (e : Effect) : Prop :=
  match e with
  | Stdout _ | Stderr _ => True
  | _ => False
  end.

(** The state after [input_file_path = std::string(arg)]. *)
Definition with_input_file_path (a : string) (s : State) : State :=
  mkState (program_name s) (running s) (Some a) (audio_output_device_id s)
          (sigint_handler_installed s) (event_callback_installed s) (trace s).

(** The token is one of the two forms of the input-file option. *)
Definition is_input_option (t : string) : bool :=
  ((t =? "--input-file")%string || (t =? "-i")%string)%bool.

(** The token is one of the two forms of the output-device option. *)
Definition is_output_option (t : string) : bool :=
  ((t =? "--set-audio-output")%string || (t =? "-o")%string)%bool.

(** The state after the two log lines of lines 113 and 127. *)
Definition announced (p : string) (s1 : State) : State :=
  add_effects [Log INFO "Initializing WavAudioPlayer...";
               Log INFO ("WAV file to be played: " ++ p)] s1.

(** The state in which the loop is entered: after [play()] and whatever
    arrived before the first test. *)
Definition at_loop (env : Collaborators) (sched : Schedule) (p : string)
    (w : WavFile) (s1 : State) : State :=
  after_arrivals (after_play sched) (playing env sched p w (announced p s1)).

(** A turn that ends the loop whatever the flag was: the engine answers
    that it is not running, or a trigger arrives before the flag is
    read (both handlers being installed). *)
Definition ends_loop (t : Tick) : bool :=
  (negb (is_running t) || existsb (fires true) (before_flag_read t))%bool.

Definition not_output_binding (e : Effect) : Prop :=
  match e with
  | TrackAddAudioDeviceOutput _ => False
  | _ => True
  end.

(** Effects that belong to no playback session yet: neither a binding of
    the track, nor its callback, nor play. *)
Definition before_binding (e : Effect) : Prop :=
  match e with
  | TrackAddAudioDeviceOutput _ | TrackAddAudioFileInput _
  | TrackSetEventCallback | TrackPlay => False
  | _ => True
  end.

(** The outcome of [main] once the loop has run from the state [s]. *)
Definition after_loop (sched : Schedule) (s : State) : Stop * State :=
  match poll_loop (ticks sched) s with
  | Next _ s' => (Returned 0, s')
  | Halt h s' => (h, s')
  end.

(** * Vocabulary of the further properties *)

(** ** The entries of the table, by name *)

Definition is_help_option (t : string) : bool :=
  ((t =? "--help")%string || (t =? "-h")%string)%bool.

Definition is_version_option (t : string) : bool :=
  ((t =? "--version")%string || (t =? "-v")%string)%bool.

Definition is_list_option (t : string) : bool :=
  ((t =? "--list-audio-devices")%string || (t =? "-ld")%string)%bool.

(** The options whose action ends with [std::exit(0)]. *)
Definition is_terminal_option (t : string) : bool :=
  (is_help_option t || is_version_option t || is_list_option t)%bool.

(** The token is a long or short form of some entry. *)
Definition is_option (t : string) : bool :=
  (is_terminal_option t || is_input_option t || is_output_option t)%bool.

Definition is_stdout (e : Effect) : Prop :=
  match e with Stdout _ => True | _ => False end.

(** ** What the informational options print *)

(** The line [help] prints for one entry (line 74). *)
Definition command_line (c : Command) : Effect :=
  Stdout ("  " ++ argument c ++ ", " ++ argument_short c ++ tab
          ++ description c ++ nl).

(** Lines 69-76, for the program name [prog]. *)
Definition help_output (env : Collaborators) (prog : string) : list Effect :=
  [Stdout ("WavAudioPlayer - A simple WAV audio player using Minimal Audio Engine"
           ++ nl);
   Stdout ("Usage: " ++ prog ++ " [options]" ++ nl ++ nl);
   Stdout ("Options:" ++ nl)]
  ++ map command_line (commands env)
  ++ [Stdout nl].

(** The line printed for one device (line 48). *)
Definition device_line (device : AudioDevice) : Effect :=
  Stdout ("  ID: " ++ dec (id device) ++ ", Name: " ++ name device
          ++ ", (Input Channels: " ++ dec (input_channels device)
          ++ ", Output Channels: " ++ dec (output_channels device)
          ++ ")" ++ nl).

(** Lines 46-49. *)
Definition device_listing (env : Collaborators) : list Effect :=
  Stdout ("Available Audio Devices:" ++ nl)
  :: map device_line (get_audio_devices env).

(** The state after a successful "--set-audio-output" (lines 60-61). *)
Definition with_audio_output (env : Collaborators) (device_id : Z)
    (s : State) : State :=
  mkState (program_name s) (running s) (input_file_path s) (Some device_id)
          (sigint_handler_installed s) (event_callback_installed s)
          (trace s
           ++ [Stdout ("Selected Audio Output Device: "
                       ++ to_string env (get_audio_device env device_id)
                       ++ nl)]).

(** What the terminal option [t] prints when the program name is [prog]. *)
Definition terminal_output (env : Collaborators) (prog t : string)
  : list Effect :=
  if is_help_option t then help_output env prog
  else if is_version_option t
       then [Stdout ("WavAudioPlayer Version " ++ VERSION_NUMBER ++ nl)]
       else device_listing env.

(** ** Invariants of the configuration *)

(** The configured output id, when there is one, is an [unsigned int] for
    which the device manager returns a device of that very id. *)
Definition output_id_is_valid (env : Collaborators) (s : State) : Prop :=
  match audio_output_device_id s with
  | Some i => id (get_audio_device env i) = i /\ 0 <= i < 2 ^ 32
  | None => True
  end.

(** [preserves I]: a step that starts where [I] holds stops where [I]
    holds. *)
Definition preserves (I : State -> Prop) : State -> State -> Prop :=
  fun s s' => I s -> I s'.

(** A string of decimal digits only. *)
Fixpoint all_digits (s : string) : bool :=
  match s with
  | EmptyString => true
  | String c rest =>
      match digit_value c with
      | Some _ => all_digits rest
      | None => false
      end
  end.

(** ** How a run may stop *)

(** [stops_in Q m]: when [m] halts, it halts in a way [Q] allows. *)
Definition stops_in {A} (Q : Stop -> Prop) (m : M A) : Prop :=
  forall s, match m s with
            | Halt h _ => Q h
            | Next _ _ => True
            end.

(** The ways the option scan of [argv] can stop the process:
    [std::exit] with 0 or 1; the exception of [std::stoi] on the token
    that follows an output-device option; undefined behaviour when the last
    token is an input-file or output-device option. *)
Definition scan_stop (argv : list string) (h : Stop) : Prop :=
  match h with
  | Exited c => c = 0 \/ c = 1
  | Uncaught e =>
      exists k t a,
        nth_error argv (S k) = Some t /\ is_output_option t = true
        /\ nth_error argv (S (S k)) = Some a /\ stoi a = inl e
  | Undefined =>
      exists k t,
        List.length argv = S (S k) /\ nth_error argv (S k) = Some t
        /\ (is_input_option t || is_output_option t)%bool = true
  | Returned _ | Killed | Polling => False
  end.

(** ** The shape of a session *)

(** Line 149: the device the session binds, if any. *)
Definition resolved_output (env : Collaborators) (dev_id : option Z)
  : option AudioDevice :=
  match dev_id with
  | Some i => Some (get_audio_device env i)
  | None => get_default_audio_output_device env
  end.

(** Every output binding is of [dev], and the missing-device error is
    not logged. *)
Definition bound_to (dev : AudioDevice) (e : Effect) : Prop :=
  match e with
  | TrackAddAudioDeviceOutput d => d = dev
  | Log ERROR m => m <> "No default audio output device found."
  | _ => True
  end.

(** What the loop itself may do. *)
Definition loop_effect (e : Effect) : Prop :=
  match e with
  | Log _ _ | WriteRunning false | ReadRunning _ | EngineIsRunning _
  | EngineStopThread | TrackStop | SleepFor _ => True
  | _ => False
  end.

(** Where a run ended, with what it had read. *)
Inductive SessionEnd :=
| StoppedInScan
| NoInputFile
| InvalidInputFile (p : string)
| TrackFailed (p : string)
| WavUnreadable (p : string)
| Played (p : string) (w : WavFile) (loop : list Effect).

(** Lines 113-141 for a valid file [p]; [cb] tells whether the track's
    callback was installed (it is not). *)
Definition setup_effects (sched : Schedule) (cb : bool) (p : string)
  : list Effect :=
  [Log INFO "Initializing WavAudioPlayer...";
   Log INFO ("WAV file to be played: " ++ p);
   EngineStartThread; SignalInstall]
  ++ flat_map (handler_effects cb) (after_signal_install sched)
  ++ [AddTrack].

(** The effects of [main] after the option scan, for each end. *)
Definition session_effects (env : Collaborators) (sched : Schedule)
    (cb : bool) (dev_id : option Z) (e : SessionEnd) : list Effect :=
  match e with
  | StoppedInScan => []
  | NoInputFile =>
      [Log INFO "Initializing WavAudioPlayer...";
       Log INFO "No input file specified. Exiting."]
  | InvalidInputFile p =>
      [Log INFO "Initializing WavAudioPlayer...";
       Log ERROR ("Specified input file is not a valid WAV file: " ++ p)]
  | TrackFailed p =>
      setup_effects sched cb p ++ [Log ERROR "Failed to create track."]
  | WavUnreadable p =>
      setup_effects sched cb p ++ output_binding env dev_id
      ++ [Log ERROR ("Failed to read WAV file: " ++ p)]
  | Played p w loop =>
      setup_effects sched cb p ++ output_binding env dev_id
      ++ [TrackAddAudioFileInput w;
          Log INFO ("Set WAV file as audio input: " ++ p);
          TrackSetEventCallback; TrackPlay]
      ++ flat_map (handler_effects true) (after_play sched)
      ++ loop
  end.

Definition loop_of (e : SessionEnd) : list Effect :=
  match e with
  | Played _ _ loop => loop
  | _ => []
  end.

(** ** Counting calls *)

Definition is_engine_start (e : Effect) : bool :=
  match e with EngineStartThread => true | _ => false end.
Definition is_add_track (e : Effect) : bool :=
  match e with AddTrack => true | _ => false end.
Definition is_output_bind (e : Effect) : bool :=
  match e with TrackAddAudioDeviceOutput _ => true | _ => false end.
Definition is_input_bind (e : Effect) : bool :=
  match e with TrackAddAudioFileInput _ => true | _ => false end.
Definition is_play (e : Effect) : bool :=
  match e with TrackPlay => true | _ => false end.
Definition is_sleep (e : Effect) : bool :=
  match e with SleepFor _ => true | _ => false end.

Definition count_of (f : Effect -> bool) (tr : list Effect) : nat :=
  List.length (filter f tr).

(** A turn in which the engine runs and no trigger arrives. *)
Definition uneventful (t : Tick) : bool :=
  (is_running t
   && negb (existsb (fires true) (before_flag_read t))
   && negb (existsb (fires true) (during_sleep t)))%bool.

(** The call that binds the output, when a device resolves. *)
Definition output_calls (env : Collaborators) (dev_id : option Z)
  : list Effect :=
  match resolved_output env dev_id with
  | Some d => [TrackAddAudioDeviceOutput d]
  | None => []
  end.

(** The calls on the engine and the track that a session that ended in [e]
    has made before its loop, in order. *)
Definition session_calls (env : Collaborators) (dev_id : option Z)
    (e : SessionEnd) : list Effect :=
  match e with
  | StoppedInScan | NoInputFile | InvalidInputFile _ => []
  | TrackFailed _ => [EngineStartThread; SignalInstall; AddTrack]
  | WavUnreadable _ =>
      [EngineStartThread; SignalInstall; AddTrack]
      ++ output_calls env dev_id
  | Played _ w _ =>
      [EngineStartThread; SignalInstall; AddTrack]
      ++ output_calls env dev_id
      ++ [TrackAddAudioFileInput w; TrackSetEventCallback; TrackPlay]
  end.

(** The calls by which a session is set up. *)
Definition is_session_call (e : Effect) : bool :=
  match e with
  | EngineStartThread | SignalInstall | AddTrack
  | TrackAddAudioDeviceOutput _ | TrackAddAudioFileInput _
  | TrackSetEventCallback | TrackPlay => true
  | _ => false
  end.

(** As [demo_env], but the file manager accepts "valid.wav" and then
    fails to read it. *)
Definition demo_env_unreadable : Collaborators :=
  mkCollaborators [speakers] (fun _ => speakers) (Some speakers) name
                  (fun p => (p =? "valid.wav")%string)
                  (fun _ => None)
                  true.

(** Four turns in which the engine runs and nothing arrives. *)
Definition sched_uneventful : Schedule :=
  mkSchedule [] [TrackEvent (OtherTrackEvent 7)]
    [mkTick true [] []; mkTick true [] [];
     mkTick true [TrackEvent (OtherTrackEvent 7)] []; mkTick true [] []].
(** * Reasoning about runs *)



Lemma extends_refl P s : extends P s s.
Proof.
  apply (extends_by P s s []); auto.
  - now rewrite app_nil_r.
  - simpl. now rewrite andb_true_r.
Qed.

Lemma extends_trans P s1 s2 s3 :
  extends P s1 s2 -> extends P s2 s3 -> extends P s1 s3.
Proof.
  intros [d1 T1 F1 R1 H1 C1] [d2 T2 F2 R2 H2 C2].
  apply (extends_by P s1 s3 (d1 ++ d2)); auto.
  - now rewrite T2, T1, app_assoc.
  - apply Forall_app; auto.
  - rewrite R2, R1, existsb_app, negb_orb. now rewrite andb_assoc.
Qed.

Lemma extends_weaken (P Q : Effect -> Prop) s s' :
  (forall e, P e -> Q e) -> extends P s s' -> extends Q s s'.
Proof.
  intros PQ [d T F R H C]. apply (extends_by Q s s' d); auto.
  eapply Forall_impl; eauto.
Qed.


#[local] Instance extends_preorder P : PreOrder (extends P).
Proof.
  split.
  - intro s. apply extends_refl.
  - intros s1 s2 s3. apply extends_trans.
Qed.

#[local] Instance keeps_preorder {B} (f : State -> B) : PreOrder (keeps f).
Proof.
  split.
  - intro s. reflexivity.
  - intros s1 s2 s3 H1 H2. unfold keeps in *. congruence.
Qed.

Section Follows.

Context {R : State -> State -> Prop} {HR : PreOrder R}.

Lemma follows_ret {A} (a : A) : follows R (ret a).
Proof. intro s. reflexivity. Qed.

Lemma follows_halt {A} (h : Stop) : follows R (@halt A h).
Proof. intro s. reflexivity. Qed.

Lemma follows_get {A} (f : State -> A) : follows R (get f).
Proof. intro s. reflexivity. Qed.

Lemma follows_bind {A B} (m : M A) (k : A -> M B) :
  follows R m -> (forall a, follows R (k a)) -> follows R (bind m k).
Proof.
  intros Hm Hk s. unfold bind. specialize (Hm s).
  destruct (m s) as [a s'|h s']; simpl in *; auto.
  transitivity s'; auto. apply Hk.
Qed.

Lemma follows_for_each {A} (l : list A) (body : A -> M unit) :
  (forall x, follows R (body x)) -> follows R (for_each l body).
Proof.
  intro Hb. induction l as [|x l IH]; simpl.
  - apply follows_ret.
  - apply follows_bind; auto.
Qed.

End Follows.

Section Respects.

Variable P : Effect -> Prop.

Lemma respects_emit e : P e -> is_flag_write e = false -> respects P (emit e).
Proof.
  intros He Hw s. apply (extends_by P _ _ [e]); simpl; auto.
  rewrite Hw. simpl. now rewrite andb_true_r.
Qed.

Lemma respects_write_false :
  P (WriteRunning false) -> respects P (write_running false).
Proof.
  intros He s. apply (extends_by P _ _ [WriteRunning false]); simpl; auto.
  now rewrite andb_false_r.
Qed.

Lemma respects_read_running :
  (forall b, P (ReadRunning b)) -> respects P read_running.
Proof.
  intros He s. apply (extends_by P _ _ [ReadRunning (running s)]); simpl; auto.
  now rewrite andb_true_r.
Qed.

Lemma respects_install_sigint_handler :
  P SignalInstall -> respects P install_sigint_handler.
Proof.
  intros He s. apply (extends_by P _ _ [SignalInstall]); simpl; auto.
  now rewrite andb_true_r.
Qed.

Lemma respects_install_event_callback :
  P TrackSetEventCallback -> respects P install_event_callback.
Proof.
  intros He s. apply (extends_by P _ _ [TrackSetEventCallback]); simpl; auto.
  now rewrite andb_true_r.
Qed.

Lemma respects_set_program_name p : respects P (set_program_name p).
Proof.
  intro s. apply (extends_by P _ _ []); simpl; auto.
  - now rewrite app_nil_r.
  - now rewrite andb_true_r.
Qed.

Lemma respects_set_input_file_path p : respects P (set_input_file_path p).
Proof.
  intro s. apply (extends_by P _ _ []); simpl; auto.
  - now rewrite app_nil_r.
  - now rewrite andb_true_r.
Qed.

Lemma respects_set_audio_output_device_id d :
  respects P (set_audio_output_device_id d).
Proof.
  intro s. apply (extends_by P _ _ []); simpl; auto.
  - now rewrite app_nil_r.
  - now rewrite andb_true_r.
Qed.

End Respects.

(** The steps that leave the input path alone. *)
Lemma keeps_input_emit e : follows (keeps input_file_path) (emit e).
Proof. intro s. reflexivity. Qed.

Lemma keeps_input_set_program_name p :
  follows (keeps input_file_path) (set_program_name p).
Proof. intro s. reflexivity. Qed.

Lemma keeps_input_set_audio_output_device_id d :
  follows (keeps input_file_path) (set_audio_output_device_id d).
Proof. intro s. reflexivity. Qed.

Create HintDb respects.
#[local] Hint Resolve
  respects_write_false respects_read_running respects_install_sigint_handler
  respects_install_event_callback respects_set_program_name
  respects_set_input_file_path respects_set_audio_output_device_id
  keeps_input_emit keeps_input_set_program_name
  keeps_input_set_audio_output_device_id : respects.

(** Splits a composed computation down to its primitive steps. *)
Ltac follows_tac :=
  repeat (intros;
    match goal with
    | |- follows _ (bind _ _) => apply follows_bind
    | |- follows _ (for_each _ _) => apply follows_for_each
    | |- follows _ (ret _) => apply follows_ret
    | |- follows _ (halt _) => apply follows_halt
    | |- follows _ (get _) => apply follows_get
    | |- follows (extends _) (emit _) =>
        apply respects_emit; [solve [auto] | reflexivity]
    | |- follows _ (if ?b then _ else _) => destruct b
    | |- follows _ (match ?x with _ => _ end) => destruct x
    | |- follows _ (let _ := _ in _) => cbv zeta
    | |- follows _ _ => solve [auto with respects]
    end).

(** ** Each part of the program, for any class of effects that contains
    what the part performs *)

Section ProgramRespects.

Variable env : Collaborators.
Variable P : Effect -> Prop.

Hypothesis P_stdout : forall t, P (Stdout t).
Hypothesis P_stderr : forall t, P (Stderr t).
Hypothesis P_log : forall l m, P (Log l m).
Hypothesis P_write_false : P (WriteRunning false).
Hypothesis P_read : forall b, P (ReadRunning b).
Hypothesis P_signal : P SignalInstall.
Hypothesis P_start : P EngineStartThread.
Hypothesis P_is_running : forall b, P (EngineIsRunning b).
Hypothesis P_stop_thread : P EngineStopThread.
Hypothesis P_add_track : P AddTrack.
Hypothesis P_output : forall d, P (TrackAddAudioDeviceOutput d).
Hypothesis P_input : forall w, P (TrackAddAudioFileInput w).
Hypothesis P_callback : P TrackSetEventCallback.
Hypothesis P_play : P TrackPlay.
Hypothesis P_stop : P TrackStop.
Hypothesis P_sleep : forall ms, P (SleepFor ms).

Lemma respects_help arg : respects P (help arg).
Proof. unfold help, cout, std_exit. follows_tac. Qed.

Lemma respects_std_string arg : respects P (std_string arg).
Proof. unfold std_string. follows_tac. Qed.

Lemma respects_action c arg : In c (commands env) -> respects P (action c arg).
Proof.
  unfold commands. simpl.
  intros [<-|[<-|[<-|[<-|[<-|[]]]]]]; simpl.
  - apply respects_help.
  - unfold version_action, cout, std_exit. follows_tac.
  - unfold input_file_action. pose proof respects_std_string. follows_tac.
  - unfold list_audio_devices_action, cout, std_exit. follows_tac.
  - unfold set_audio_output_action, cout, cerr, std_exit.
    pose proof respects_std_string. follows_tac.
Qed.

Lemma respects_dispatch cmds arg next :
  incl cmds (commands env) -> respects P (dispatch cmds arg next).
Proof.
  induction cmds as [|c cmds IH]; intro Hin; simpl.
  - apply follows_ret.
  - destruct (matches arg c).
    + apply respects_action. apply Hin. now left.
    + apply IH. intros x Hx. apply Hin. now right.
Qed.

Lemma respects_scan_at argv i : respects P (scan_at env argv i).
Proof.
  unfold scan_at. destruct (nth_error argv i).
  - apply respects_dispatch. apply incl_refl.
  - apply follows_ret.
Qed.

Lemma respects_scan argv count : forall i, respects P (scan env argv i count).
Proof.
  induction count as [|c IH]; intro i; simpl.
  - apply follows_ret.
  - apply follows_bind; auto. apply respects_scan_at.
Qed.

Lemma respects_parse argv : respects P (parse_command_line_arguments env argv).
Proof.
  unfold parse_command_line_arguments.
  destruct (List.length argv <? 2)%nat.
  - apply respects_help.
  - apply follows_bind; [apply respects_set_program_name|].
    intros _. apply respects_scan.
Qed.

Lemma respects_sigint_handler : respects P sigint_handler.
Proof. unfold sigint_handler, LOG_INFO. follows_tac. Qed.

Lemma respects_track_event_callback ev : respects P (track_event_callback ev).
Proof. unfold track_event_callback, LOG_INFO. follows_tac. Qed.

Lemma respects_deliver_all arrivals : respects P (deliver_all arrivals).
Proof.
  unfold deliver_all. apply follows_for_each. intros [|ev]; simpl.
  - pose proof respects_sigint_handler. follows_tac.
  - pose proof (respects_track_event_callback ev). follows_tac.
Qed.

Lemma respects_check_input_file : respects P (check_input_file env).
Proof. unfold check_input_file, LOG_INFO, LOG_ERROR. follows_tac. Qed.

Lemma respects_start_playback sched p : respects P (start_playback env sched p).
Proof.
  unfold start_playback, LOG_INFO, LOG_ERROR.
  pose proof (respects_deliver_all (after_signal_install sched)).
  follows_tac.
Qed.

Lemma respects_session_setup sched argv :
  respects P (session_setup env sched argv).
Proof.
  unfold session_setup, LOG_INFO.
  pose proof (respects_parse argv).
  pose proof (respects_check_input_file).
  pose proof (respects_deliver_all (after_play sched)).
  pose proof (respects_start_playback sched).
  follows_tac.
Qed.

Lemma respects_poll_loop ts : respects P (poll_loop ts).
Proof.
  induction ts as [|t ts IH]; simpl.
  - apply follows_halt.
  - unfold LOG_INFO.
    pose proof (respects_deliver_all (before_flag_read t)).
    pose proof (respects_deliver_all (during_sleep t)).
    follows_tac.
Qed.

Lemma respects_main_body sched argv : respects P (main_body env sched argv).
Proof.
  unfold main_body.
  pose proof (respects_session_setup sched argv).
  pose proof (respects_poll_loop (ticks sched)).
  follows_tac.
Qed.

End ProgramRespects.

Lemma snd_main env sched argv :
  snd (main env sched argv) = final (main_body env sched argv initial_state).
Proof.
  unfold main. now destruct (main_body env sched argv initial_state).
Qed.

Lemma fst_main_halt env sched argv h s :
  main_body env sched argv initial_state = Halt h s ->
  main env sched argv = (h, s).
Proof. unfold main. now intros ->. Qed.

(** * The handlers, step by step *)

Lemma sigint_handler_run (s : State) :
  sigint_handler s
  = Next tt (mkState (program_name s) false (input_file_path s)
                     (audio_output_device_id s)
                     (sigint_handler_installed s)
                     (event_callback_installed s)
                     (trace s ++ [Log INFO "SIGINT received, shutting down...";
                                  WriteRunning false])).
Proof.
  unfold sigint_handler, LOG_INFO, bind, emit, write_running. simpl.
  now rewrite <- app_assoc.
Qed.

Lemma playback_finished_run (s : State) :
  track_event_callback PlaybackFinished s
  = Next tt (mkState (program_name s) false (input_file_path s)
                     (audio_output_device_id s)
                     (sigint_handler_installed s)
                     (event_callback_installed s)
                     (trace s ++ [Log INFO "Track playback finished.";
                                  WriteRunning false])).
Proof.
  unfold track_event_callback, LOG_INFO, bind, emit, write_running. simpl.
  now rewrite <- app_assoc.
Qed.

Lemma deliver_run a s :
  sigint_handler_installed s = true ->
  deliver a s = Next tt (after_arrivals [a] s).
Proof.
  intro Hs. unfold after_arrivals.
  destruct a as [|[|code]]; unfold deliver, bind, get.
  - rewrite Hs, sigint_handler_run. simpl.
    now rewrite Hs, andb_false_r.
  - destruct (event_callback_installed s) eqn:Hc.
    + rewrite playback_finished_run. simpl.
      now rewrite Hc, andb_false_r.
    + unfold ret. destruct s; simpl in *; subst.
      now rewrite andb_true_r, app_nil_r.
  - destruct (event_callback_installed s) eqn:Hc;
      unfold track_event_callback, ret; destruct s; simpl in *; subst;
      now rewrite andb_true_r, app_nil_r.
Qed.

Lemma after_arrivals_cons a rest s :
  after_arrivals (a :: rest) s = after_arrivals rest (after_arrivals [a] s).
Proof.
  unfold after_arrivals. simpl.
  rewrite app_nil_r, orb_false_r, negb_orb, andb_assoc.
  now rewrite <- app_assoc.
Qed.

Lemma deliver_all_run arrivals : forall s,
  sigint_handler_installed s = true ->
  deliver_all arrivals s = Next tt (after_arrivals arrivals s).
Proof.
  unfold deliver_all.
  induction arrivals as [|a rest IH]; intros s Hs.
  - unfold after_arrivals, for_each, ret. destruct s; simpl.
    now rewrite andb_true_r, app_nil_r.
  - rewrite after_arrivals_cons.
    change (for_each (a :: rest) deliver s)
      with (bind (deliver a) (fun _ => for_each rest deliver) s).
    unfold bind. rewrite deliver_run by assumption.
    apply IH. exact Hs.
Qed.

(** * The Shutdown Flag *)



Lemma flag_transitions_false tr :
  Forall writes_false tr -> flag_transitions false tr = 0%nat.
Proof.
  induction 1 as [|e tr He _ IH]; simpl; auto.
  destruct e as [| | |[|]| | | | | | | | | | | |]; auto.
  now elim He.
Qed.

Lemma flag_transitions_true tr :
  Forall writes_false tr ->
  flag_transitions true tr
  = (if existsb is_flag_write tr then 1 else 0)%nat.
Proof.
  induction 1 as [|e tr He Htr IH]; simpl; auto.
  destruct e as [| | |[|]| | | | | | | | | | | |]; simpl; auto.
  - now elim He.
  - now rewrite flag_transitions_false.
Qed.

(** * The interrupt handler *)

(** C3, counterexample.  Run from the initial state, the handler logs a
    message before the write: its effects are not the single flag write. *)
Lemma sigint_handler_logs :
  trace (final (sigint_handler initial_state))
  = [Log INFO "SIGINT received, shutting down..."; WriteRunning false]
  /\ trace (final (sigint_handler initial_state))
     <> trace initial_state ++ [WriteRunning false].
Proof. split; [reflexivity | discriminate]. Qed.

(** C3, amended.  The handler logs the info message "SIGINT received,
    shutting down..." and then sets the flag to false; it returns, and
    nothing else of the state changes. *)
Theorem sigint_handler_effect (s : State) :
  sigint_handler s
  = Next tt (mkState (program_name s) false (input_file_path s)
                     (audio_output_device_id s)
                     (sigint_handler_installed s)
                     (event_callback_installed s)
                     (trace s ++ [Log INFO "SIGINT received, shutting down...";
                                  WriteRunning false])).
Proof. exact (sigint_handler_run s). Qed.


(** * The poll loop *)

(** Brings nested appends to one right-nested list. *)
Ltac norm_app :=
  repeat (rewrite <- app_assoc || rewrite <- app_comm_cons); simpl.

Lemma quiet_handler_effects cb arrivals :
  Forall quiet (flat_map (handler_effects cb) arrivals).
Proof.
  induction arrivals as [|a rest IH]; simpl; auto.
  apply Forall_app. split; auto.
  destruct a as [|[|code]]; simpl; try destruct cb;
    repeat constructor.
Qed.

Lemma quiet_facts d :
  Forall quiet d ->
  teardown_calls d = [] /\ flag_seen_false d = false
  /\ engine_seen_down d = false.
Proof.
  unfold teardown_calls, flag_seen_false, engine_seen_down.
  induction 1 as [|e d (T & F & E) _ (IH1 & IH2 & IH3)]; simpl; auto.
  now rewrite T, F, E.
Qed.

(** Every way out of the loop: quiet effects, then the effects of the
    exit. *)
Lemma poll_loop_shape ts : forall s,
  sigint_handler_installed s = true ->
  exists x d st,
    Forall quiet d
    /\ poll_loop ts s = exit_result x st
    /\ trace st = trace s ++ d ++ exit_effects x.
Proof.
  induction ts as [|t ts IH]; intros s Hs.
  - exists StillPolling, [], s. simpl. rewrite app_nil_r. auto.
  - cbn [poll_loop]. unfold bind at 1, emit at 1.
    destruct (is_running t).
    + unfold bind at 1. rewrite deliver_all_run by exact Hs.
      unfold bind at 1, read_running at 1.
      set (s2 := after_arrivals (before_flag_read t) _).
      destruct (running s2) eqn:Hr; cbn [negb].
      * unfold bind at 1, emit at 1. unfold bind at 1.
        rewrite deliver_all_run by exact Hs.
        set (s4 := after_arrivals (during_sleep t) _).
        destruct (IH s4 Hs) as (x & d & st & Hd & Hrun & Htr).
        exists x, ([EngineIsRunning true]
                   ++ flat_map (handler_effects (event_callback_installed s))
                               (before_flag_read t)
                   ++ [ReadRunning true; SleepFor 100]
                   ++ flat_map (handler_effects (event_callback_installed s))
                               (during_sleep t)
                   ++ d), st.
        split; [|split; [exact Hrun|]].
        -- repeat (apply Forall_app; split);
             auto using quiet_handler_effects; repeat constructor.
        -- rewrite Htr. subst s4 s2. simpl. now norm_app.
      * eexists ByFlag, ([EngineIsRunning true]
                   ++ flat_map (handler_effects (event_callback_installed s))
                               (before_flag_read t)), _.
        split; [|split; [reflexivity|]].
        -- apply Forall_app; split;
             auto using quiet_handler_effects; repeat constructor.
        -- subst s2. simpl. now norm_app.
    + eexists ByEngine, [], _. split; [constructor|].
      split; [reflexivity|]. reflexivity.
Qed.

(** * The session before the loop *)

Lemma start_playback_run env sched p s :
  start_playback env sched p s
  = if get_track env then
      match read_wav_file env p with
      | Some w => Next tt (playing env sched p w s)
      | None =>
          Halt (Returned (-1))
               (add_effects
                  (output_binding env (audio_output_device_id s)
                   ++ [Log ERROR ("Failed to read WAV file: " ++ p)])
                  (track_requested sched s))
      end
    else
      Halt (Returned (-1))
           (add_effects [Log ERROR "Failed to create track."]
                        (track_requested sched s)).
Proof.
  unfold start_playback.
  unfold bind at 1, emit at 1. unfold bind at 1, install_sigint_handler at 1.
  unfold bind at 1. rewrite deliver_all_run by reflexivity.
  unfold playing, add_effects, with_event_callback, track_requested,
    output_binding, after_arrivals.
  unfold bind, emit, get, ret, halt, LOG_INFO, LOG_ERROR,
    install_event_callback.
  simpl.
  destruct (get_track env); simpl.
  - destruct (audio_output_device_id s) as [i|]; simpl.
    + destruct (read_wav_file env p); simpl; now norm_app.
    + destruct (get_default_audio_output_device env); simpl;
        destruct (read_wav_file env p); simpl; now norm_app.
  - now norm_app.
Qed.

Lemma session_setup_run env sched argv s0 s1 :
  parse_command_line_arguments env argv s0 = Next tt s1 ->
  session_setup env sched argv s0
  = match input_file_path s1 with
    | None =>
        Halt (Returned 0)
             (add_effects [Log INFO "Initializing WavAudioPlayer...";
                           Log INFO "No input file specified. Exiting."] s1)
    | Some p =>
        if is_wav_file env p then
          bind (start_playback env sched p)
               (fun _ => deliver_all (after_play sched))
               (add_effects [Log INFO "Initializing WavAudioPlayer...";
                             Log INFO ("WAV file to be played: " ++ p)] s1)
        else
          Halt (Returned (-1))
               (add_effects
                  [Log INFO "Initializing WavAudioPlayer...";
                   Log ERROR ("Specified input file is not a valid WAV file: "
                              ++ p)] s1)
    end.
Proof.
  intro Hparse. unfold session_setup. unfold bind at 1. rewrite Hparse.
  unfold bind at 1, LOG_INFO at 1, emit at 1.
  unfold bind at 1, check_input_file.
  unfold bind at 1, get at 1. cbn [input_file_path]. unfold add_effects.
  destruct (input_file_path s1) as [p|].
  - destruct (is_wav_file env p); cbn [negb].
    + unfold bind at 1, LOG_INFO, emit at 1, ret.
      simpl. now norm_app.
    + unfold bind, LOG_ERROR, emit, halt, add_effects. simpl. now norm_app.
  - unfold bind, LOG_INFO, emit, halt, add_effects. simpl. now norm_app.
Qed.

Lemma session_setup_halt env sched argv s0 h s :
  parse_command_line_arguments env argv s0 = Halt h s ->
  session_setup env sched argv s0 = Halt h s.
Proof. intro H. unfold session_setup. unfold bind at 1. now rewrite H. Qed.

(** Leaving the setup normally means playing, with both handlers
    installed. *)
Lemma session_setup_installed env sched argv s0 s1 :
  session_setup env sched argv s0 = Next tt s1 ->
  sigint_handler_installed s1 = true /\ event_callback_installed s1 = true.
Proof.
  destruct (parse_command_line_arguments env argv s0) as [[] s|h s] eqn:Hp.
  - rewrite (session_setup_run _ _ _ _ _ Hp).
    destruct (input_file_path s) as [p|]; [|discriminate].
    destruct (is_wav_file env p); [|discriminate].
    unfold bind. rewrite start_playback_run.
    destruct (get_track env); [|discriminate].
    destruct (read_wav_file env p); [|discriminate].
    rewrite deliver_all_run by reflexivity.
    intro H. injection H as <-. split; reflexivity.
  - rewrite (session_setup_halt _ _ _ _ _ _ Hp). discriminate.
Qed.

(** * Teardown order *)

Lemma quiet_all :
  (forall t, quiet (Stdout t)) /\ (forall t, quiet (Stderr t))
  /\ (forall l m, quiet (Log l m)) /\ quiet (WriteRunning false)
  /\ quiet SignalInstall /\ quiet EngineStartThread /\ quiet AddTrack
  /\ (forall d, quiet (TrackAddAudioDeviceOutput d))
  /\ (forall w, quiet (TrackAddAudioFileInput w))
  /\ quiet TrackSetEventCallback /\ quiet TrackPlay.
Proof. unfold quiet. simpl. repeat split. Qed.

Lemma session_setup_quiet env sched argv :
  respects quiet (session_setup env sched argv).
Proof.
  destruct quiet_all as (?&?&?&?&?&?&?&?&?&?&?).
  apply respects_session_setup; assumption.
Qed.

(** The trace of a whole run: quiet effects, then the effects of the way
    the loop was left (none when the run never left the loop, or stopped
    before it). *)
Lemma main_shape env sched argv :
  exists x d,
    Forall quiet d
    /\ trace (snd (main env sched argv)) = d ++ exit_effects x.
Proof.
  rewrite snd_main. unfold main_body. unfold bind at 1.
  pose proof (session_setup_quiet env sched argv initial_state) as Hq.
  destruct (session_setup env sched argv initial_state) as [[] s1|h s1] eqn:Hs.
  - destruct (session_setup_installed _ _ _ _ _ Hs) as [Hi _].
    destruct Hq as [d0 T0 F0 _ _ _]. simpl in T0.
    destruct (poll_loop_shape (ticks sched) s1 Hi) as (x & d & st & Fd & Hr & Ht).
    exists x, (d0 ++ d). split; [apply Forall_app; auto|].
    unfold bind. rewrite Hr.
    replace (final match exit_result x st with
                   | Next _ s' => halt (Returned 0) s'
                   | Halt h s' => Halt h s'
                   end) with st by now destruct x.
    rewrite Ht, T0. now rewrite app_assoc.
  - destruct Hq as [d0 T0 F0 _ _ _]. simpl in T0, F0 |- *.
    exists StillPolling, d0. simpl. rewrite app_nil_r. auto.
Qed.

(** C2, counterexample.  With a valid file and an engine that reports not
    running at the first test, the loop is left and [main] returns 0 with
    neither teardown call made: there is no call to stop transport that
    precedes a call to stop the engine thread. *)
Lemma engine_down_exit_skips_teardown :
  let r := main demo_env sched_engine_down ["prog"; "-i"; "valid.wav"] in
  fst r = Returned 0
  /\ engine_seen_down (trace (snd r)) = true
  /\ teardown_calls (trace (snd r)) = []
  /\ ~ stop_transport_precedes_stop_engine (trace (snd r)).
Proof.
  cbv zeta. repeat split; try (vm_compute; reflexivity).
  intros (pre & mid & post & H).
  assert (Hin : In TrackStop
                  (trace (snd (main demo_env sched_engine_down
                                    ["prog"; "-i"; "valid.wav"])))).
  { rewrite H. apply in_or_app. right. now left. }
  vm_compute in Hin.
  repeat (destruct Hin as [Hin|Hin]; [discriminate|]). exact Hin.
Qed.

(** C2, amended.  In every run the teardown calls are none at all, or
    stop transport followed by stop engine thread.  They are made exactly
    when the loop read the flag as false (which it does only after the
    engine answered that it is running), and then the trace ends with that
    read, the log line, stop transport and stop engine thread, in this
    order.  A run in which the engine answered that it is not running has
    no read of the flag as false, hence no teardown call. *)
Theorem teardown_order (env : Collaborators) (sched : Schedule)
    (argv : list string) :
  let tr := trace (snd (main env sched argv)) in
  teardown_calls tr
  = (if flag_seen_false tr then [TrackStop; EngineStopThread] else [])
  /\ (engine_seen_down tr && flag_seen_false tr)%bool = false
  /\ exists pre,
       tr = pre ++ (if flag_seen_false tr then shutdown_sequence else []).
Proof.
  cbv zeta.
  destruct (main_shape env sched argv) as (x & d & Fd & ->).
  destruct (quiet_facts d Fd) as (T & F & E).
  unfold teardown_calls, flag_seen_false, engine_seen_down in *.
  rewrite filter_app, !existsb_app, T, F, E.
  destruct x; simpl; repeat split; eauto.
  exists (d ++ [EngineIsRunning false]). now rewrite app_nil_r.
Qed.

(** * The option scan *)

Lemma dispatch_find cmds arg next :
  dispatch cmds arg next
  = match find (matches arg) cmds with
    | Some c => action c next
    | None => ret tt
    end.
Proof.
  induction cmds as [|c cmds IH]; simpl; auto.
  now destruct (matches arg c).
Qed.

Lemma scan_split env argv a : forall i b s,
  scan env argv i (a + b) s
  = bind (scan env argv i a) (fun _ => scan env argv (i + a) b) s.
Proof.
  induction a as [|a IH]; intros i b s.
  - simpl. unfold bind, ret. now rewrite Nat.add_0_r.
  - cbn [Nat.add scan]. unfold bind.
    destruct (scan_at env argv i s) as [[] s'|h s']; auto.
    rewrite IH. unfold bind. now rewrite Nat.add_succ_r.
Qed.

Lemma parse_run env argv :
  (2 <= List.length argv)%nat ->
  parse_command_line_arguments env argv initial_state
  = scan env argv 1 (List.length argv - 1) (scan_start argv).
Proof.
  intro Hlen. unfold parse_command_line_arguments.
  destruct (Nat.ltb_spec (List.length argv) 2) as [Hlt|_]; [lia|].
  reflexivity.
Qed.

Lemma parse_console env argv :
  respects console (parse_command_line_arguments env argv).
Proof. apply respects_parse; intros; exact I. Qed.

Lemma console_not_in e d :
  ~ console e -> Forall console d -> ~ In e d.
Proof.
  intros He Hd Hin. rewrite Forall_forall in Hd. apply He, Hd, Hin.
Qed.

(** The trace after the scan holds console output only. *)
Lemma parse_trace env argv :
  Forall console
    (trace (final (parse_command_line_arguments env argv initial_state))).
Proof.
  destruct (parse_console env argv initial_state) as [d T F _ _ _].
  simpl in T. now rewrite T.
Qed.

Lemma main_parse_halt env sched argv h s :
  parse_command_line_arguments env argv initial_state = Halt h s ->
  main env sched argv = (h, s).
Proof.
  intro H. apply fst_main_halt. unfold main_body. unfold bind at 1.
  now rewrite (session_setup_halt _ _ _ _ _ _ H).
Qed.

(** ** A token that is also an argument *)

(** C9.  When the token at index [i] matches an entry of the table and a
    token follows it, the entry's action receives that following token as
    its argument, and the next turn of the loop dispatches the same token
    against the table: it is not skipped.  So "--input-file --version"
    both stores "--version" as the input path and runs the version
    action, which exits 0. *)
Theorem argument_token_is_scanned_again
    (env : Collaborators) (argv : list string) (i count : nat)
    (arg nxt : string) (c : Command) (s : State) :
  nth_error argv i = Some arg ->
  nth_error argv (i + 1) = Some nxt ->
  find (matches arg) (commands env) = Some c ->
  scan env argv i (S (S count)) s
  = bind (action c (Some nxt))
         (fun _ => bind (dispatch (commands env) nxt (nth_error argv (i + 2)))
                        (fun _ => scan env argv (S (S i)) count)) s
  /\ forall sched,
       main env sched ["prog"; "--input-file"; "--version"]
       = (Exited 0,
          add_effects [Stdout ("WavAudioPlayer Version 1.0.0" ++ nl)]
            (with_input_file_path "--version" (scan_start ["prog"]))).
Proof.
  intros Harg Hnxt Hfind. split.
  - cbn [scan]. unfold scan_at.
    rewrite Harg, Hnxt, dispatch_find, Hfind.
    replace (S i) with (i + 1)%nat by lia. rewrite Hnxt.
    replace (i + 1 + 1)%nat with (i + 2)%nat by lia.
    reflexivity.
  - intro sched. reflexivity.
Qed.

Lemma argument_token_is_scanned_again_witness :
  scan demo_env ["prog"; "-i"; "-v"; "x"] 1 3
       (scan_start ["prog"; "-i"; "-v"; "x"])
  = bind (input_file_action (Some "-v"))
         (fun _ => bind (dispatch (commands demo_env) "-v" (Some "x"))
                        (fun _ => scan demo_env ["prog"; "-i"; "-v"; "x"] 3 1))
         (scan_start ["prog"; "-i"; "-v"; "x"]).
Proof.
  exact (proj1 (argument_token_is_scanned_again demo_env
                  ["prog"; "-i"; "-v"; "x"] 1 1 "-i" "-v"
                  (mkCommand "--input-file" "-i" "Specify input WAV file"
                             input_file_action)
                  (scan_start ["prog"; "-i"; "-v"; "x"])
                  eq_refl eq_refl eq_refl)).
Defined.

(** ** An option as the last token *)

Lemma scan_at_last env argv i arg :
  nth_error argv i = Some arg ->
  S i = List.length argv ->
  scan_at env argv i = dispatch (commands env) arg None.
Proof.
  intros Harg Hlast. unfold scan_at. rewrite Harg.
  replace (nth_error argv (i + 1)) with (@None string); auto.
  symmetry. apply nth_error_None. lia.
Qed.

(** C10.  When the token at the last index matches an entry, the entry's
    action is called with a null argument.  The input-file action builds a
    string from its argument whatever it is: with a null argument that is
    undefined behaviour, with a token [a] it stores [a] as the input path.
    Hence a scan that meets "--input-file" or "-i" as the last token is
    undefined from there on. *)
Theorem last_option_gets_null_argument
    (env : Collaborators) (argv : list string) (i count : nat)
    (arg : string) (c : Command) (s : State) :
  nth_error argv i = Some arg ->
  S i = List.length argv ->
  find (matches arg) (commands env) = Some c ->
  scan_at env argv i s = action c None s
  /\ input_file_action None s = Halt Undefined s
  /\ (forall a, input_file_action (Some a) s
                = Next tt (with_input_file_path a s))
  /\ (if is_input_option arg
      then scan env argv i (S count) s = Halt Undefined s
      else True).
Proof.
  intros Harg Hlast Hfind.
  rewrite (scan_at_last env argv i arg Harg Hlast), dispatch_find, Hfind.
  repeat split.
  destruct (is_input_option arg) eqn:Hopt; [|exact I].
  cbn [scan]. unfold bind.
  rewrite (scan_at_last env argv i arg Harg Hlast).
  unfold is_input_option in Hopt.
  apply orb_true_iff in Hopt as [H|H]; apply String.eqb_eq in H; subst arg;
    reflexivity.
Qed.

Lemma last_option_gets_null_argument_witness :
  scan_at demo_env ["prog"; "-i"] 1 (scan_start ["prog"; "-i"])
  = input_file_action None (scan_start ["prog"; "-i"])
  /\ input_file_action None (scan_start ["prog"; "-i"])
     = Halt Undefined (scan_start ["prog"; "-i"])
  /\ scan demo_env ["prog"; "-i"] 1 1 (scan_start ["prog"; "-i"])
     = Halt Undefined (scan_start ["prog"; "-i"]).
Proof.
  destruct (last_option_gets_null_argument demo_env ["prog"; "-i"] 1 0 "-i"
              (mkCommand "--input-file" "-i" "Specify input WAV file"
                         input_file_action)
              (scan_start ["prog"; "-i"]) eq_refl eq_refl eq_refl)
    as (H1 & H2 & _ & H4).
  split; [exact H1 | split; [exact H2 | exact H4]].
Defined.

(** ** An output device that does not exist *)

Lemma dispatch_output_option env opt next :
  is_output_option opt = true ->
  dispatch (commands env) opt next = set_audio_output_action env next.
Proof.
  unfold is_output_option. intro H.
  apply orb_true_iff in H as [H|H]; apply String.eqb_eq in H; subst opt;
    reflexivity.
Qed.

Lemma set_audio_output_unknown env a v s :
  stoi a = inr v ->
  id (get_audio_device env (to_unsigned v)) <> to_unsigned v ->
  set_audio_output_action env (Some a) s
  = Halt (Exited 1)
         (add_effects [Stderr (no_device_message (to_unsigned v))] s).
Proof.
  intros Hv Hid. unfold set_audio_output_action, std_string.
  unfold bind at 1, ret at 1. unfold bind at 1. rewrite Hv. unfold ret at 1.
  apply Z.eqb_neq in Hid. rewrite Hid. reflexivity.
Qed.

Lemma main_trace_of_halted_parse env sched argv h s :
  parse_command_line_arguments env argv initial_state = Halt h s ->
  main env sched argv = (h, s) /\ Forall console (trace s).
Proof.
  intro H. split; [now apply main_parse_halt|].
  pose proof (parse_trace env argv) as T. now rewrite H in T.
Qed.



(** * The guard on the input file *)

Lemma main_of_setup_halt env sched argv h s :
  session_setup env sched argv initial_state = Halt h s ->
  main env sched argv = (h, s).
Proof.
  intro H. apply fst_main_halt. unfold main_body. unfold bind at 1.
  now rewrite H.
Qed.

Lemma parsed_trace env argv s1 :
  parse_command_line_arguments env argv initial_state = Next tt s1 ->
  Forall console (trace s1).
Proof.
  intro H. pose proof (parse_trace env argv) as T. now rewrite H in T.
Qed.

(** C6.  When the option scan completes with an input path [p] that the
    file manager does not accept as a WAV file, [main] logs the error and
    returns -1, a non-zero exit status; the trace holds the console output
    of the scan and two log lines: the engine thread was never started, no
    track was requested and no input was bound. *)
Theorem invalid_input_file_fails
    (env : Collaborators) (sched : Schedule) (argv : list string)
    (s1 : State) (p : string) :
  parse_command_line_arguments env argv initial_state = Next tt s1 ->
  input_file_path s1 = Some p ->
  is_wav_file env p = false ->
  let r := main env sched argv in
  r = (Returned (-1),
       add_effects
         [Log INFO "Initializing WavAudioPlayer...";
          Log ERROR ("Specified input file is not a valid WAV file: " ++ p)]
         s1)
  /\ exit_status (-1) = 255
  /\ ~ In EngineStartThread (trace (snd r))
  /\ ~ In AddTrack (trace (snd r))
  /\ forall w, ~ In (TrackAddAudioFileInput w) (trace (snd r)).
Proof.
  intros Hparse Hpath Hwav r.
  assert (Hr : r = (Returned (-1),
       add_effects
         [Log INFO "Initializing WavAudioPlayer...";
          Log ERROR ("Specified input file is not a valid WAV file: " ++ p)]
         s1)).
  { apply main_of_setup_halt.
    rewrite (session_setup_run _ _ _ _ _ Hparse), Hpath, Hwav. reflexivity. }
  rewrite Hr. cbn [snd add_effects trace].
  pose proof (parsed_trace env argv s1 Hparse) as Hc.
  split; [reflexivity|]. split; [reflexivity|].
  assert (Hno : forall e, ~ console e ->
            e <> Log INFO "Initializing WavAudioPlayer..." ->
            e <> Log ERROR ("Specified input file is not a valid WAV file: "
                            ++ p) ->
            ~ In e (trace s1 ++
                    [Log INFO "Initializing WavAudioPlayer...";
                     Log ERROR
                       ("Specified input file is not a valid WAV file: "
                        ++ p)])).
  { intros e He H1 H2 Hin. apply in_app_or in Hin as [Hin|Hin].
    - revert Hin. now apply console_not_in.
    - destruct Hin as [Hin|[Hin|[]]]; congruence. }
  split; [|split; [|intro w]]; apply Hno; simpl; auto; discriminate.
Qed.

Lemma invalid_input_file_fails_witness :
  main demo_env sched_finished_then_sigint ["prog"; "-i"; "notes.txt"]
  = (Returned (-1),
     add_effects
       [Log INFO "Initializing WavAudioPlayer...";
        Log ERROR "Specified input file is not a valid WAV file: notes.txt"]
       (with_input_file_path "notes.txt"
          (scan_start ["prog"; "-i"; "notes.txt"]))).
Proof.
  exact (proj1 (invalid_input_file_fails demo_env sched_finished_then_sigint
                  ["prog"; "-i"; "notes.txt"]
                  (with_input_file_path "notes.txt"
                     (scan_start ["prog"; "-i"; "notes.txt"]))
                  "notes.txt" eq_refl eq_refl eq_refl)).
Defined.

(** ** No input file *)

Lemma keeps_input_dispatch env t next :
  is_input_option t = false ->
  follows (keeps input_file_path) (dispatch (commands env) t next).
Proof.
  intro Ht. unfold commands. cbn [dispatch].
  destruct (matches t _).
  { cbn [action]. unfold help, cout, std_exit. follows_tac. }
  destruct (matches t _).
  { cbn [action]. unfold version_action, cout, std_exit. follows_tac. }
  change (matches t (mkCommand "--input-file" "-i" "Specify input WAV file"
                               input_file_action))
    with (is_input_option t).
  rewrite Ht.
  destruct (matches t _).
  { cbn [action]. unfold list_audio_devices_action, cout, std_exit.
    follows_tac. }
  destruct (matches t _).
  { cbn [action].
    unfold set_audio_output_action, std_string, cout, cerr, std_exit.
    follows_tac. }
  apply follows_ret.
Qed.

Lemma no_input_option_at argv i t :
  existsb is_input_option (tl argv) = false ->
  nth_error argv (S i) = Some t ->
  is_input_option t = false.
Proof.
  intros Hex Hn. destruct argv as [|a0 rest]; [discriminate|].
  simpl in Hex, Hn. apply nth_error_In in Hn.
  destruct (is_input_option t) eqn:Ht; auto.
  assert (existsb is_input_option rest = true)
    by (apply existsb_exists; eauto).
  congruence.
Qed.

Lemma keeps_input_scan env argv :
  existsb is_input_option (tl argv) = false ->
  forall count i, follows (keeps input_file_path) (scan env argv (S i) count).
Proof.
  intros Hex count. induction count as [|c IH]; intro i; cbn [scan].
  - apply follows_ret.
  - apply follows_bind; [|intros _; apply IH].
    unfold scan_at. destruct (nth_error argv (S i)) as [t|] eqn:Ht.
    + apply keeps_input_dispatch. eapply no_input_option_at; eauto.
    + apply follows_ret.
Qed.

Lemma keeps_input_parse env argv :
  existsb is_input_option (tl argv) = false ->
  follows (keeps input_file_path) (parse_command_line_arguments env argv).
Proof.
  intro Hex. unfold parse_command_line_arguments.
  destruct (List.length argv <? 2)%nat.
  - unfold help, cout, std_exit. follows_tac.
  - apply follows_bind; [auto with respects|].
    intros _. now apply keeps_input_scan.
Qed.

(** C7.  When no token after the program name is "--input-file" or "-i"
    and the option scan completes, the input path is unset: [main] logs
    "No input file specified. Exiting." and returns 0; the trace holds the
    console output of the scan and two log lines, so the engine thread was
    never started. *)
Theorem no_input_file_exits_0
    (env : Collaborators) (sched : Schedule) (argv : list string)
    (s1 : State) :
  existsb is_input_option (tl argv) = false ->
  parse_command_line_arguments env argv initial_state = Next tt s1 ->
  let r := main env sched argv in
  r = (Returned 0,
       add_effects [Log INFO "Initializing WavAudioPlayer...";
                    Log INFO "No input file specified. Exiting."] s1)
  /\ input_file_path s1 = None
  /\ ~ In EngineStartThread (trace (snd r)).
Proof.
  intros Hex Hparse r.
  assert (Hpath : input_file_path s1 = None).
  { pose proof (keeps_input_parse env argv Hex initial_state) as K.
    unfold keeps in K. now rewrite Hparse in K. }
  assert (Hr : r = (Returned 0,
       add_effects [Log INFO "Initializing WavAudioPlayer...";
                    Log INFO "No input file specified. Exiting."] s1)).
  { apply main_of_setup_halt.
    now rewrite (session_setup_run _ _ _ _ _ Hparse), Hpath. }
  rewrite Hr. cbn [snd add_effects trace].
  pose proof (parsed_trace env argv s1 Hparse) as Hc.
  repeat split; auto. intro Hin.
  apply in_app_or in Hin as [Hin|Hin].
  - revert Hin. apply console_not_in; auto.
  - repeat (destruct Hin as [Hin|Hin]; [discriminate|]). exact Hin.
Qed.

Lemma no_input_file_exits_0_witness :
  main demo_env sched_finished_then_sigint ["prog"; "-o"; "0"]
  = (Returned 0,
     add_effects [Log INFO "Initializing WavAudioPlayer...";
                  Log INFO "No input file specified. Exiting."]
       (final (parse_command_line_arguments demo_env ["prog"; "-o"; "0"]
                                            initial_state))).
Proof.
  exact (proj1 (no_input_file_exits_0 demo_env sched_finished_then_sigint
                  ["prog"; "-o"; "0"]
                  (final (parse_command_line_arguments demo_env
                            ["prog"; "-o"; "0"] initial_state))
                  eq_refl eq_refl)).
Defined.

(** * Sessions that reach the loop *)

Lemma main_playing env sched argv s1 p w :
  parse_command_line_arguments env argv initial_state = Next tt s1 ->
  input_file_path s1 = Some p ->
  is_wav_file env p = true ->
  get_track env = true ->
  read_wav_file env p = Some w ->
  main env sched argv = after_loop sched (at_loop env sched p w s1).
Proof.
  unfold after_loop.
  intros Hparse Hpath Hwav Htrack Hread.
  unfold main, main_body. unfold bind at 1.
  rewrite (session_setup_run _ _ _ _ _ Hparse), Hpath, Hwav.
  unfold bind, halt. rewrite start_playback_run, Htrack, Hread.
  rewrite deliver_all_run by reflexivity.
  fold (announced p s1). fold (at_loop env sched p w s1).
  now destruct (poll_loop (ticks sched) (at_loop env sched p w s1)).
Qed.

Lemma at_loop_installed env sched p w s1 :
  sigint_handler_installed (at_loop env sched p w s1) = true
  /\ event_callback_installed (at_loop env sched p w s1) = true.
Proof. split; reflexivity. Qed.

(** A turn that ends the loop makes it return. *)
Lemma poll_loop_ends ts : forall s,
  sigint_handler_installed s = true ->
  event_callback_installed s = true ->
  existsb ends_loop ts = true ->
  exists st, poll_loop ts s = Next tt st.
Proof.
  induction ts as [|t ts IH]; intros s Hs Hc Hex; [discriminate|].
  cbn [poll_loop]. unfold bind at 1, emit at 1.
  destruct (is_running t) eqn:Hrun; [|eexists; reflexivity].
  unfold bind at 1. rewrite deliver_all_run by exact Hs.
  unfold bind at 1, read_running at 1.
  set (s2 := after_arrivals (before_flag_read t) _).
  destruct (running s2) eqn:Hr; cbn [negb]; [|eexists; reflexivity].
  unfold bind at 1, emit at 1. unfold bind at 1.
  rewrite deliver_all_run by exact Hs.
  apply IH; [exact Hs | exact Hc |].
  cbn [existsb] in Hex. unfold ends_loop at 1 in Hex.
  rewrite Hrun in Hex. cbn [negb orb] in Hex.
  subst s2. unfold after_arrivals in Hr. cbn [running event_callback_installed] in Hr.
  rewrite Hc in Hr.
  destruct (existsb (fires true) (before_flag_read t)).
  - now rewrite andb_false_r in Hr.
  - exact Hex.
Qed.

Lemma handler_effects_Forall (P : Effect -> Prop) cb arrivals :
  (forall m, P (Log INFO m)) -> P (WriteRunning false) ->
  Forall P (flat_map (handler_effects cb) arrivals).
Proof.
  intros Hl Hw. induction arrivals as [|a rest IH]; simpl; auto.
  apply Forall_app. split; auto.
  destruct a as [|[|code]]; simpl; try destruct cb; repeat constructor; auto.
Qed.

Lemma after_loop_outcome sched s :
  sigint_handler_installed s = true ->
  fst (after_loop sched s) = Returned 0 \/ fst (after_loop sched s) = Polling.
Proof.
  intro Hs. unfold after_loop.
  destruct (poll_loop_shape (ticks sched) s Hs) as (x & d & st & _ & -> & _).
  destruct x; simpl; auto.
Qed.

Lemma after_loop_ends sched s :
  sigint_handler_installed s = true ->
  event_callback_installed s = true ->
  existsb ends_loop (ticks sched) = true ->
  fst (after_loop sched s) = Returned 0.
Proof.
  intros Hs Hc Hex. unfold after_loop.
  now destruct (poll_loop_ends (ticks sched) s Hs Hc Hex) as (st & ->).
Qed.

Lemma after_loop_trace (P : Effect -> Prop) sched s :
  (forall l m, P (Log l m)) -> P (WriteRunning false) ->
  (forall b, P (ReadRunning b)) -> (forall b, P (EngineIsRunning b)) ->
  P EngineStopThread -> P TrackStop -> (forall ms, P (SleepFor ms)) ->
  exists d, trace (snd (after_loop sched s)) = trace s ++ d /\ Forall P d.
Proof.
  intros. unfold after_loop.
  destruct (respects_poll_loop P) with (ts := ticks sched) (s := s)
    as [d T F _ _ _]; auto.
  exists d. split; auto.
  now destruct (poll_loop (ticks sched) s).
Qed.

Lemma at_loop_trace env sched p w s1 :
  trace (at_loop env sched p w s1)
  = trace s1
    ++ [Log INFO "Initializing WavAudioPlayer...";
        Log INFO ("WAV file to be played: " ++ p);
        EngineStartThread; SignalInstall]
    ++ flat_map (handler_effects (event_callback_installed s1))
                (after_signal_install sched)
    ++ [AddTrack]
    ++ output_binding env (audio_output_device_id s1)
    ++ [TrackAddAudioFileInput w;
        Log INFO ("Set WAV file as audio input: " ++ p);
        TrackSetEventCallback; TrackPlay]
    ++ flat_map (handler_effects true) (after_play sched).
Proof.
  unfold at_loop, after_arrivals, playing, add_effects, with_event_callback,
    track_requested, announced.
  cbn [trace event_callback_installed audio_output_device_id].
  now repeat norm_app.
Qed.

(** * No output device *)

(** C8.  Take a session that gets as far as resolving the output device:
    the scan completed with a valid input file [p], the track exists and
    the file reads as [w].  If no device id was configured and there is no
    default output device, the session logs "No default audio output
    device found." and goes on: right after it the input is bound, the
    callback set and play called; no output is ever bound.  The run then
    either returns 0 or is still polling when the schedule ends, never a
    failure; it returns 0 as soon as some turn of the schedule ends the
    loop. *)
Theorem missing_output_device_is_not_fatal
    (env : Collaborators) (sched : Schedule) (argv : list string)
    (s1 : State) (p : string) (w : WavFile) :
  parse_command_line_arguments env argv initial_state = Next tt s1 ->
  input_file_path s1 = Some p ->
  is_wav_file env p = true ->
  get_track env = true ->
  read_wav_file env p = Some w ->
  audio_output_device_id s1 = None ->
  get_default_audio_output_device env = None ->
  let r := main env sched argv in
  (exists pre post,
     trace (snd r)
     = pre ++ [AddTrack;
               Log ERROR "No default audio output device found.";
               TrackAddAudioFileInput w;
               Log INFO ("Set WAV file as audio input: " ++ p);
               TrackSetEventCallback; TrackPlay] ++ post)
  /\ Forall not_output_binding (trace (snd r))
  /\ (fst r = Returned 0 \/ fst r = Polling)
  /\ (if existsb ends_loop (ticks sched) then fst r = Returned 0 else True).
Proof.
  intros Hparse Hpath Hwav Htrack Hread Hid Hdef r.
  subst r. rewrite (main_playing _ _ _ _ _ _ Hparse Hpath Hwav Htrack Hread).
  destruct (at_loop_installed env sched p w s1) as [Hs Hc].
  destruct (after_loop_trace not_output_binding sched
              (at_loop env sched p w s1)) as (d & T & F);
    try (intros; exact I); try exact I.
  rewrite T, at_loop_trace, Hid. unfold output_binding. rewrite Hdef.
  split; [|split; [|split]].
  - exists (trace s1
            ++ [Log INFO "Initializing WavAudioPlayer...";
                Log INFO ("WAV file to be played: " ++ p);
                EngineStartThread; SignalInstall]
            ++ flat_map (handler_effects (event_callback_installed s1))
                        (after_signal_install sched)),
           (flat_map (handler_effects true) (after_play sched) ++ d).
    now rewrite <- !app_assoc.
  - repeat (apply Forall_app; split); auto;
      try (apply handler_effects_Forall; intros; exact I);
      try (repeat constructor).
    eapply Forall_impl; [|exact (parsed_trace env argv s1 Hparse)].
    now intros [].
  - now apply after_loop_outcome.
  - destruct (existsb ends_loop (ticks sched)) eqn:Hex; [|exact I].
    now apply after_loop_ends.
Qed.

Lemma missing_output_device_is_not_fatal_witness :
  fst (main demo_env_no_default sched_finished_then_sigint
            ["prog"; "-i"; "valid.wav"]) = Returned 0
  /\ Forall not_output_binding
       (trace (snd (main demo_env_no_default sched_finished_then_sigint
                         ["prog"; "-i"; "valid.wav"]))).
Proof.
  destruct (missing_output_device_is_not_fatal demo_env_no_default
              sched_finished_then_sigint ["prog"; "-i"; "valid.wav"]
              (with_input_file_path "valid.wav"
                 (scan_start ["prog"; "-i"; "valid.wav"]))
              "valid.wav" (WavHandle 0)
              eq_refl eq_refl eq_refl eq_refl eq_refl eq_refl eq_refl)
    as (_ & H2 & _ & H4).
  split; [exact H4 | exact H2].
Defined.

(** * Lifecycle errors *)

(** C4, counterexample.  With an engine whose thread never reports
    running (its start failed), the session is not aborted: the track is
    created and bound, play is called, the loop body never runs, and the
    process exits with status 0. *)
Lemma failed_engine_start_goes_unnoticed :
  let r := main demo_env sched_engine_down ["prog"; "-i"; "valid.wav"] in
  fst r = Returned 0
  /\ exit_status 0 = 0
  /\ In EngineStartThread (trace (snd r))
  /\ In TrackPlay (trace (snd r))
  /\ existsb (fun e => match e with EngineIsRunning true => true | _ => false end)
             (trace (snd r)) = false.
Proof.
  cbv zeta. split; [reflexivity|]. split; [reflexivity|].
  split; [|split; [|reflexivity]]; vm_compute; tauto.
Qed.

(** C4, amended.  Take a session whose scan completed with a valid input
    file [p].  If the track cannot be created, [main] logs "Failed to
    create track." and returns -1, a non-zero exit status, with nothing
    bound to a track, no callback set and play never called.  The start of
    the engine thread is not examined: when the track exists and the file
    reads as [w], the session reaches the loop whatever the engine does,
    and if the engine answers at the first test that it is not running,
    [main] leaves the loop at once and returns 0, play having been
    called. *)
Theorem lifecycle_errors
    (env : Collaborators) (sched : Schedule) (argv : list string)
    (s1 : State) (p : string) :
  parse_command_line_arguments env argv initial_state = Next tt s1 ->
  input_file_path s1 = Some p ->
  is_wav_file env p = true ->
  let r := main env sched argv in
  if get_track env then
    match read_wav_file env p, ticks sched with
    | Some w, t :: _ =>
        if is_running t then True
        else r = (Returned 0,
                  add_effects [EngineIsRunning false]
                              (at_loop env sched p w s1))
             /\ In EngineStartThread (trace (snd r))
             /\ In TrackPlay (trace (snd r))
    | _, _ => True
    end
  else
    r = (Returned (-1),
         add_effects [Log ERROR "Failed to create track."]
                     (track_requested sched (announced p s1)))
    /\ exit_status (-1) = 255
    /\ Forall before_binding (trace (snd r)).
Proof.
  intros Hparse Hpath Hwav r.
  destruct (get_track env) eqn:Htrack.
  - destruct (read_wav_file env p) as [w|] eqn:Hread; [|exact I].
    destruct (ticks sched) as [|t ts] eqn:Hticks; [exact I|].
    destruct (is_running t) eqn:Hrun; [exact I|].
    assert (Hr : r = (Returned 0,
                      add_effects [EngineIsRunning false]
                                  (at_loop env sched p w s1))).
    { subst r.
      rewrite (main_playing _ _ _ _ _ _ Hparse Hpath Hwav Htrack Hread).
      unfold after_loop. rewrite Hticks. cbn [poll_loop].
      unfold bind, emit. now rewrite Hrun. }
    rewrite Hr. split; [reflexivity|].
    cbn [snd add_effects trace]. rewrite at_loop_trace.
    split; apply in_or_app; left; apply in_or_app; right.
    + right. right. now left.
    + apply in_or_app. right. apply in_or_app. right.
      apply in_or_app. right. apply in_or_app. right.
      apply in_or_app. left. simpl. tauto.
  - assert (Hr : r = (Returned (-1),
         add_effects [Log ERROR "Failed to create track."]
                     (track_requested sched (announced p s1)))).
    { subst r. apply main_of_setup_halt.
      rewrite (session_setup_run _ _ _ _ _ Hparse), Hpath, Hwav.
      unfold bind. fold (announced p s1).
      now rewrite start_playback_run, Htrack. }
    rewrite Hr. split; [reflexivity|]. split; [reflexivity|].
    cbn [snd add_effects track_requested announced trace
         event_callback_installed].
    repeat (apply Forall_app; split);
      try (apply handler_effects_Forall; intros; exact I);
      try (repeat constructor).
    eapply Forall_impl; [|exact (parsed_trace env argv s1 Hparse)].
    now intros [].
Qed.

Lemma lifecycle_errors_witness :
  fst (main demo_env_no_track sched_finished_then_sigint
            ["prog"; "-i"; "valid.wav"]) = Returned (-1)
  /\ fst (main demo_env sched_engine_down ["prog"; "-i"; "valid.wav"])
     = Returned 0.
Proof.
  split.
  - exact (f_equal fst
             (proj1 (lifecycle_errors demo_env_no_track
                       sched_finished_then_sigint ["prog"; "-i"; "valid.wav"]
                       (with_input_file_path "valid.wav"
                          (scan_start ["prog"; "-i"; "valid.wav"]))
                       "valid.wav" eq_refl eq_refl eq_refl))).
  - exact (f_equal fst
             (proj1 (lifecycle_errors demo_env sched_engine_down
                       ["prog"; "-i"; "valid.wav"]
                       (with_input_file_path "valid.wav"
                          (scan_start ["prog"; "-i"; "valid.wav"]))
                       "valid.wav" eq_refl eq_refl eq_refl))).
Defined.

(** * End-to-end scenarios *)

(** "prog -i valid.wav" with a default device: playback finishes during the
    first sleep and an interrupt arrives before the next read of the flag.
    The flag is written twice, false both times, and changes once; the loop
    then stops transport, stops the engine thread, and [main] returns 0. *)
Example finished_then_interrupted :
  let r := main demo_env sched_finished_then_sigint
                ["prog"; "-i"; "valid.wav"] in
  fst r = Returned 0
  /\ running (snd r) = false
  /\ filter is_flag_write (trace (snd r))
     = [WriteRunning false; WriteRunning false]
  /\ flag_transitions true (trace (snd r)) = 1%nat
  /\ teardown_calls (trace (snd r)) = [TrackStop; EngineStopThread].
Proof. vm_compute. repeat split. Qed.

(** "prog" alone prints the help text, with an empty program name since
    line 87 has not run yet, and exits 0. *)
Example no_arguments_prints_help :
  fst (main demo_env sched_engine_down ["prog"]) = Exited 0
  /\ nth 1 (trace (snd (main demo_env sched_engine_down ["prog"]))) AddTrack
     = Stdout ("Usage:  [options]" ++ nl ++ nl).
Proof. vm_compute. split; reflexivity. Qed.

(** A device id that is not a number is an uncaught [invalid_argument];
    "-1" wraps to 4294967295. *)
Example output_device_argument_parsing :
  fst (main demo_env sched_engine_down ["prog"; "-o"; "abc"])
  = Uncaught invalid_argument
  /\ trace (snd (main demo_env sched_engine_down ["prog"; "-o"; "-1"]))
     = [Stderr (no_device_message 4294967295)].
Proof. vm_compute. split; reflexivity. Qed.

(** * Further properties of the option table *)

Lemma add_effects_nil s : add_effects [] s = s.
Proof. destruct s. unfold add_effects. simpl. now rewrite app_nil_r. Qed.

Lemma add_effects_app d1 d2 s :
  add_effects (d1 ++ d2) s = add_effects d2 (add_effects d1 s).
Proof. unfold add_effects. simpl. now rewrite app_assoc. Qed.

Lemma for_each_cout {A} (text : A -> string) (l : list A) : forall s,
  for_each l (fun x => cout (text x)) s
  = Next tt (add_effects (map (fun x => Stdout (text x)) l) s).
Proof.
  induction l as [|x l IH]; intro s; simpl.
  - unfold ret. now rewrite add_effects_nil.
  - unfold bind, cout, emit. rewrite IH.
    change (Stdout (text x) :: map (fun x0 => Stdout (text x0)) l)
      with ([Stdout (text x)] ++ map (fun x0 => Stdout (text x0)) l).
    now rewrite add_effects_app.
Qed.

(** The inner loop, entry by entry. *)
Lemma dispatch_commands env t next :
  dispatch (commands env) t next
  = if is_help_option t then help next
    else if is_version_option t then version_action next
    else if is_input_option t then input_file_action next
    else if is_list_option t then list_audio_devices_action env next
    else if is_output_option t then set_audio_output_action env next
    else ret tt.
Proof. reflexivity. Qed.

Lemma help_run env arg s :
  help arg s = Halt (Exited 0) (add_effects (help_output env (program_name s)) s).
Proof.
  unfold help, help_output, cout, std_exit, bind, emit, get, halt, add_effects.
  simpl. now repeat norm_app.
Qed.

Lemma version_run arg s :
  version_action arg s
  = Halt (Exited 0)
         (add_effects [Stdout ("WavAudioPlayer Version " ++ VERSION_NUMBER ++ nl)]
                      s).
Proof. reflexivity. Qed.

Lemma list_audio_devices_run env arg s :
  list_audio_devices_action env arg s
  = Halt (Exited 0) (add_effects (device_listing env) s).
Proof.
  unfold list_audio_devices_action. unfold bind at 1, cout at 1, emit.
  unfold bind. rewrite for_each_cout. unfold std_exit, halt, device_listing.
  f_equal. unfold add_effects. simpl. now rewrite <- app_assoc.
Qed.

(** ** Components of the state that the whole scan leaves alone *)

Section KeepsScan.

Variable env : Collaborators.
Context {B : Type} (f : State -> B).

Hypothesis f_emit : forall e, follows (keeps f) (emit e).
Hypothesis f_input : forall p, follows (keeps f) (set_input_file_path p).
Hypothesis f_output :
  forall d, follows (keeps f) (set_audio_output_device_id d).

#[local] Hint Resolve f_emit f_input f_output : respects.

Lemma keeps_dispatch t next :
  follows (keeps f) (dispatch (commands env) t next).
Proof.
  rewrite dispatch_commands.
  unfold help, version_action, input_file_action, list_audio_devices_action,
    set_audio_output_action, std_string, cout, cerr, std_exit.
  follows_tac.
Qed.

Lemma keeps_scan argv count : forall i,
  follows (keeps f) (scan env argv i count).
Proof.
  induction count as [|c IH]; intro i; cbn [scan].
  - apply follows_ret.
  - apply follows_bind; [|intros _; apply IH].
    unfold scan_at. destruct (nth_error argv i).
    + apply keeps_dispatch.
    + apply follows_ret.
Qed.

End KeepsScan.

Lemma keeps_program_name_scan env argv count i :
  follows (keeps program_name) (scan env argv i count).
Proof. apply keeps_scan; intros ? ?; reflexivity. Qed.

Lemma terminal_dispatch env t next s :
  is_terminal_option t = true ->
  dispatch (commands env) t next s
  = Halt (Exited 0) (add_effects (terminal_output env (program_name s) t) s).
Proof.
  intro Ht. rewrite dispatch_commands. unfold terminal_output.
  destruct (is_help_option t) eqn:Hh; [apply help_run|].
  destruct (is_version_option t) eqn:Hv; [apply version_run|].
  unfold is_terminal_option in Ht. rewrite Hh, Hv in Ht. cbn [orb] in Ht.
  assert (Hi : is_input_option t = false).
  { unfold is_list_option in Ht.
    apply orb_true_iff in Ht as [H|H]; apply String.eqb_eq in H; now subst t. }
  rewrite Hi, Ht. apply list_audio_devices_run.
Qed.

(** X1.  An informational option ("--help", "--version",
    "--list-audio-devices" or their short forms) never reads its argument:
    with any following token, or none, its action prints its text (the
    help text with one line per entry of the table in table order, the
    version line, or a header and one line per device in the order the
    device manager gives them) and calls [std::exit(0)], leaving the
    globals as they were. *)
Theorem terminal_options_exit_0
    (env : Collaborators) (t : string) (next : option string) (s : State) :
  is_terminal_option t = true ->
  dispatch (commands env) t next s
  = Halt (Exited 0) (add_effects (terminal_output env (program_name s) t) s)
  /\ Forall is_stdout (terminal_output env (program_name s) t)
  /\ List.length (device_listing env)
     = S (List.length (get_audio_devices env)).
Proof.
  intro Ht. split; [now apply terminal_dispatch|]. split.
  - unfold terminal_output, help_output, device_listing.
    destruct (is_help_option t); [|destruct (is_version_option t)].
    + repeat constructor.
    + repeat constructor.
    + constructor; [exact I|]. apply Forall_forall. intros e He.
      apply in_map_iff in He as (d & <- & _). exact I.
  - unfold device_listing. simpl. now rewrite length_map.
Qed.

Lemma terminal_options_exit_0_witness :
  dispatch (commands demo_env) "-ld" None initial_state
  = Halt (Exited 0)
         (add_effects
            [Stdout ("Available Audio Devices:" ++ nl);
             Stdout ("  ID: 0, Name: Speakers, (Input Channels: 0, "
                     ++ "Output Channels: 2)" ++ nl)]
            initial_state).
Proof.
  exact (proj1 (terminal_options_exit_0 demo_env "-ld" None initial_state
                  eq_refl)).
Defined.

(** X2.  With fewer than two tokens on the command line [main] prints the
    help text and exits 0 whatever the collaborators are.  The usage line
    names an empty program: [program_name] is assigned on line 87, after the
    early call of [help]. *)
Theorem too_few_arguments_print_help
    (env : Collaborators) (sched : Schedule) (argv : list string) :
  (List.length argv < 2)%nat ->
  main env sched argv
  = (Exited 0, add_effects (help_output env "") initial_state).
Proof.
  intro Hlen. apply main_parse_halt.
  unfold parse_command_line_arguments.
  destruct (Nat.ltb_spec (List.length argv) 2) as [_|H]; [|lia].
  apply help_run.
Qed.

Lemma too_few_arguments_print_help_witness :
  main demo_env sched_engine_down ["prog"]
  = (Exited 0, add_effects (help_output demo_env "") initial_state).
Proof.
  apply (too_few_arguments_print_help demo_env sched_engine_down ["prog"]).
  simpl. lia.
Defined.

(** X3.  An informational option ends the scan where it stands: if the
    tokens before index [k + 1] were scanned through, the process prints
    that option's text and exits 0, and no later token is dispatched,
    whatever follows (an unknown device id, a dangling "-i").  If an
    earlier token stopped the process, that is the outcome. *)
Theorem terminal_option_stops_the_scan
    (env : Collaborators) (sched : Schedule) (argv : list string) (k : nat)
    (t : string) :
  nth_error argv (S k) = Some t ->
  is_terminal_option t = true ->
  match scan env argv 1 k (scan_start argv) with
  | Next _ s1 =>
      main env sched argv
      = (Exited 0, add_effects (terminal_output env (nth 0 argv "") t) s1)
      /\ program_name s1 = nth 0 argv ""
  | Halt h s1 => main env sched argv = (h, s1)
  end.
Proof.
  intros Ht Hterm.
  assert (Hlen : (S k < List.length argv)%nat).
  { apply nth_error_Some. rewrite Ht. discriminate. }
  assert (Hname : forall s1,
            scan env argv 1 k (scan_start argv) = Next tt s1 ->
            program_name s1 = nth 0 argv "").
  { intros s1 Hs.
    pose proof (keeps_program_name_scan env argv k 1 (scan_start argv)) as K.
    unfold keeps in K. now rewrite Hs in K. }
  assert (Hparse :
    parse_command_line_arguments env argv initial_state
    = bind (scan env argv 1 k)
           (fun _ => bind (scan_at env argv (S k))
                          (fun _ => scan env argv (S (S k))
                                         (List.length argv - 2 - k)))
           (scan_start argv)).
  { rewrite parse_run by lia.
    replace (List.length argv - 1)%nat
      with (k + S (List.length argv - 2 - k))%nat by lia.
    now rewrite scan_split. }
  unfold bind in Hparse.
  destruct (scan env argv 1 k (scan_start argv)) as [[] s1|h s1].
  - split; [|now apply Hname].
    apply main_parse_halt. rewrite Hparse. unfold scan_at. rewrite Ht.
    rewrite (terminal_dispatch env t _ s1 Hterm).
    now rewrite (Hname s1 eq_refl).
  - now apply main_parse_halt.
Qed.

Lemma terminal_option_stops_the_scan_witness :
  main demo_env sched_engine_down ["prog"; "-v"; "-o"; "99"; "-i"]
  = (Exited 0,
     add_effects [Stdout ("WavAudioPlayer Version 1.0.0" ++ nl)]
                 (scan_start ["prog"; "-v"; "-o"; "99"; "-i"])).
Proof.
  exact (proj1 (terminal_option_stops_the_scan demo_env sched_engine_down
                  ["prog"; "-v"; "-o"; "99"; "-i"] 0 "-v" eq_refl eq_refl)).
Defined.

(** ** Tokens that are no option *)

Lemma token_after_program_name {A} (P : A -> bool) (argv : list A) k t :
  forallb P (tl argv) = true ->
  nth_error argv (S k) = Some t ->
  P t = true.
Proof.
  intros Hall Hn. destruct argv as [|a0 rest]; [discriminate|].
  simpl in Hall, Hn. apply nth_error_In in Hn.
  rewrite forallb_forall in Hall. now apply Hall.
Qed.

Lemma dispatch_unknown env t next s :
  is_option t = false ->
  dispatch (commands env) t next s = Next tt s.
Proof.
  unfold is_option, is_terminal_option. intro H.
  apply orb_false_elim in H as [H Ho].
  apply orb_false_elim in H as [H Hi].
  apply orb_false_elim in H as [H Hl].
  apply orb_false_elim in H as [Hh Hv].
  rewrite dispatch_commands, Hh, Hv, Hi, Hl, Ho. reflexivity.
Qed.

Lemma scan_unknown env argv :
  forallb (fun t => negb (is_option t)) (tl argv) = true ->
  forall count i s, scan env argv (S i) count s = Next tt s.
Proof.
  intros Hall count. induction count as [|c IH]; intros i s; cbn [scan].
  - reflexivity.
  - unfold bind, scan_at.
    destruct (nth_error argv (S i)) as [t|] eqn:Ht.
    + rewrite dispatch_unknown; [apply IH|].
      apply negb_true_iff.
      now apply (token_after_program_name _ argv i t Hall).
    + apply IH.
Qed.

(** X4.  Tokens that are no form of any entry are skipped without a
    message: when none of the tokens after the program name is an option
    name, the scan runs to its end having only recorded the program name,
    and [main] then finds no input file and returns 0. *)
Theorem unknown_tokens_are_ignored
    (env : Collaborators) (sched : Schedule) (argv : list string) :
  (2 <= List.length argv)%nat ->
  forallb (fun t => negb (is_option t)) (tl argv) = true ->
  parse_command_line_arguments env argv initial_state
  = Next tt (scan_start argv)
  /\ main env sched argv
     = (Returned 0,
        add_effects [Log INFO "Initializing WavAudioPlayer...";
                     Log INFO "No input file specified. Exiting."]
                    (scan_start argv)).
Proof.
  intros Hlen Hall.
  assert (Hparse : parse_command_line_arguments env argv initial_state
                   = Next tt (scan_start argv)).
  { rewrite parse_run by exact Hlen. now apply scan_unknown. }
  split; [exact Hparse|].
  apply main_of_setup_halt.
  now rewrite (session_setup_run _ _ _ _ _ Hparse).
Qed.

Lemma unknown_tokens_are_ignored_witness :
  parse_command_line_arguments demo_env ["prog"; "song.wav"; "--loud"; "-x"]
                               initial_state
  = Next tt (scan_start ["prog"; "song.wav"; "--loud"; "-x"]).
Proof.
  refine (proj1 (unknown_tokens_are_ignored demo_env sched_engine_down
                   ["prog"; "song.wav"; "--loud"; "-x"] _ eq_refl)).
  simpl. lia.
Defined.

(** ** Several input files *)

Lemma keeps_input_scan_from env argv j :
  (forall k u, (j < k)%nat -> nth_error argv k = Some u ->
               is_input_option u = false) ->
  forall count i, (j < i)%nat ->
    follows (keeps input_file_path) (scan env argv i count).
Proof.
  intros Hno count. induction count as [|c IH]; intros i Hi; cbn [scan].
  - apply follows_ret.
  - apply follows_bind; [|intros _; apply IH; lia].
    unfold scan_at. destruct (nth_error argv i) as [t|] eqn:Ht.
    + apply keeps_input_dispatch. eapply Hno; eauto.
    + apply follows_ret.
Qed.

Lemma input_dispatch env t next s :
  is_input_option t = true ->
  dispatch (commands env) t next s = input_file_action next s.
Proof.
  unfold is_input_option. intro H.
  apply orb_true_iff in H as [H|H]; apply String.eqb_eq in H; now subst t.
Qed.

(** X5.  When the scan completes, the input path is the token that
    follows the last "--input-file"/"-i" on the command line: each
    occurrence overwrites the path set by the ones before it, and no other
    option touches it. *)
Theorem last_input_file_option_wins
    (env : Collaborators) (argv : list string) (j : nat) (t : string)
    (s1 : State) :
  parse_command_line_arguments env argv initial_state = Next tt s1 ->
  nth_error argv (S j) = Some t ->
  is_input_option t = true ->
  (forall k u, (S j < k)%nat -> nth_error argv k = Some u ->
               is_input_option u = false) ->
  input_file_path s1 = nth_error argv (S (S j))
  /\ input_file_path s1 <> None.
Proof.
  intros Hparse Ht Hin Hlast.
  assert (Hlen : (S j < List.length argv)%nat).
  { apply nth_error_Some. rewrite Ht. discriminate. }
  rewrite parse_run in Hparse by lia.
  replace (List.length argv - 1)%nat
    with (j + S (List.length argv - 2 - j))%nat in Hparse by lia.
  rewrite scan_split in Hparse. unfold bind in Hparse.
  destruct (scan env argv 1 j (scan_start argv)) as [[] sa|h sa];
    [|discriminate].
  cbn [scan Nat.add] in Hparse. unfold bind, scan_at in Hparse.
  rewrite Ht, (input_dispatch env t _ sa Hin) in Hparse.
  replace (S j + 1)%nat with (S (S j)) in Hparse by lia.
  destruct (nth_error argv (S (S j))) as [a|]; [|discriminate].
  change (input_file_action (Some a) sa)
    with (Next tt (with_input_file_path a sa)) in Hparse.
  pose proof (keeps_input_scan_from env argv (S j) Hlast
                (List.length argv - 2 - j) (S (S j)) (Nat.lt_succ_diag_r _)
                (with_input_file_path a sa)) as K.
  unfold keeps in K. rewrite Hparse in K. cbn [final] in K.
  rewrite K. split; [reflexivity|discriminate].
Qed.

Lemma last_input_file_option_wins_witness :
  input_file_path
    (final (parse_command_line_arguments demo_env
              ["prog"; "-i"; "a.wav"; "--input-file"; "b.wav"] initial_state))
  = Some "b.wav".
Proof.
  refine (proj1 (last_input_file_option_wins demo_env
                   ["prog"; "-i"; "a.wav"; "--input-file"; "b.wav"] 2
                   "--input-file" _ eq_refl eq_refl eq_refl _)).
  intros k u Hk Hu.
  do 4 (destruct k as [|k]; [lia|]).
  destruct k as [|k].
  - injection Hu as <-. reflexivity.
  - now destruct k.
Defined.

(** * The output device id *)


Lemma to_unsigned_range v : 0 <= to_unsigned v < 2 ^ 32.
Proof. unfold to_unsigned. apply Z.mod_pos_bound. lia. Qed.


Lemma set_audio_output_known env a v s :
  stoi a = inr v ->
  id (get_audio_device env (to_unsigned v)) = to_unsigned v ->
  set_audio_output_action env (Some a) s
  = Next tt (with_audio_output env (to_unsigned v) s).
Proof.
  intros Hv Hid. unfold set_audio_output_action, std_string.
  unfold bind at 1, ret at 1. unfold bind at 1. rewrite Hv. unfold ret at 1.
  apply Z.eqb_eq in Hid. rewrite Hid. reflexivity.
Qed.

#[local] Instance preserves_preorder (I : State -> Prop) :
  PreOrder (preserves I).
Proof.
  split.
  - intros s H. exact H.
  - intros s1 s2 s3 H12 H23 H. apply H23, H12, H.
Qed.

Section OutputIdInvariant.

Variable env : Collaborators.

Lemma valid_emit e :
  follows (preserves (output_id_is_valid env)) (emit e).
Proof. intros s H. exact H. Qed.

Lemma valid_set_program_name p :
  follows (preserves (output_id_is_valid env)) (set_program_name p).
Proof. intros s H. exact H. Qed.

Lemma valid_set_input_file_path p :
  follows (preserves (output_id_is_valid env)) (set_input_file_path p).
Proof. intros s H. exact H. Qed.

#[local] Hint Resolve valid_emit valid_set_program_name
  valid_set_input_file_path : respects.

Lemma valid_set_audio_output_action arg :
  follows (preserves (output_id_is_valid env))
          (set_audio_output_action env arg).
Proof.
  intros s H. destruct arg as [a|]; [|exact H].
  destruct (stoi a) as [e|v] eqn:Hv.
  - unfold set_audio_output_action, std_string, bind, ret, halt.
    rewrite Hv. exact H.
  - destruct (Z.eq_dec (id (get_audio_device env (to_unsigned v)))
                       (to_unsigned v)) as [Hid|Hid].
    + rewrite (set_audio_output_known env a v s Hv Hid).
      unfold output_id_is_valid. cbn [final with_audio_output
                                      audio_output_device_id].
      split; [exact Hid | apply to_unsigned_range].
    + rewrite (set_audio_output_unknown env a v s Hv Hid). exact H.
Qed.

Lemma valid_dispatch t next :
  follows (preserves (output_id_is_valid env))
          (dispatch (commands env) t next).
Proof.
  rewrite dispatch_commands.
  pose proof (valid_set_audio_output_action next).
  unfold help, version_action, input_file_action, list_audio_devices_action,
    std_string, cout, std_exit.
  follows_tac.
Qed.

Lemma valid_scan argv count : forall i,
  follows (preserves (output_id_is_valid env)) (scan env argv i count).
Proof.
  induction count as [|c IH]; intro i; cbn [scan].
  - apply follows_ret.
  - apply follows_bind; [|intros _; apply IH].
    unfold scan_at. destruct (nth_error argv i).
    + apply valid_dispatch.
    + apply follows_ret.
Qed.

Lemma valid_parse argv :
  follows (preserves (output_id_is_valid env))
          (parse_command_line_arguments env argv).
Proof.
  unfold parse_command_line_arguments.
  destruct (List.length argv <? 2)%nat.
  - unfold help, cout, std_exit. follows_tac.
  - apply follows_bind; [auto with respects|].
    intros _. apply valid_scan.
Qed.

End OutputIdInvariant.

(** X6.  Whatever the command line, and whether the scan runs to its end
    or is stopped by an option, the output id it has configured (if any) is
    an [unsigned int] that the device manager resolves to a device of that
    same id: an id whose lookup failed is never stored. *)
Theorem configured_output_id_names_a_device
    (env : Collaborators) (argv : list string) :
  output_id_is_valid env
    (final (parse_command_line_arguments env argv initial_state)).
Proof. apply valid_parse. exact I. Qed.



(** ** Characters after the number *)

Lemma digit_is_plain c d :
  digit_value c = Some d ->
  isspace c = false /\ c <> "-"%char /\ c <> "+"%char.
Proof.
  destruct c as [[] [] [] [] [] [] [] []]; intro H;
    try discriminate H; repeat split; discriminate.
Qed.

Lemma read_digits_stops a c rest : forall acc seen,
  all_digits a = true ->
  digit_value c = None ->
  read_digits (a ++ String c rest)%string acc seen = read_digits a acc seen.
Proof.
  induction a as [|d a IH]; intros acc seen Ha Hc; cbn [String.append].
  - cbn [read_digits]. now rewrite Hc.
  - cbn [read_digits all_digits] in *.
    destruct (digit_value d); [|discriminate]. now apply IH.
Qed.

Lemma stoi_of_digits d a :
  (exists v, digit_value d = Some v) ->
  stoi (String d a)
  = let '(v, seen) := read_digits (String d a) 0 false in
    if negb seen then inl invalid_argument
    else if ((INT_MIN <=? v)%Z && (v <=? INT_MAX)%Z)%bool then inr v
         else inl out_of_range.
Proof.
  intros [v Hd].
  destruct d as [[] [] [] [] [] [] [] []]; try discriminate Hd; reflexivity.
Qed.

(** X8.  [std::stoi] stops at the first character that is no digit and
    the action does not look at the rest: a device id written as digits
    followed by anything else ("3abc", "0 ") is handled exactly as the
    digits alone. *)
Theorem characters_after_device_id_are_ignored
    (env : Collaborators) (d : ascii) (a rest : string) (c : ascii)
    (s : State) :
  all_digits (String d a) = true ->
  digit_value c = None ->
  stoi (String d a ++ String c rest) = stoi (String d a)
  /\ set_audio_output_action env (Some (String d a ++ String c rest)%string) s
     = set_audio_output_action env (Some (String d a)) s.
Proof.
  intros Ha Hc.
  assert (Hd : exists v, digit_value d = Some v).
  { cbn [all_digits] in Ha. destruct (digit_value d) as [v|]; eauto.
    discriminate. }
  assert (Hs : stoi (String d a ++ String c rest) = stoi (String d a)).
  { cbn [String.append].
    rewrite !stoi_of_digits by exact Hd.
    change (String d (a ++ String c rest)%string)
      with (String d a ++ String c rest)%string.
    now rewrite read_digits_stops. }
  split; [exact Hs|].
  unfold set_audio_output_action, std_string, bind, ret. now rewrite Hs.
Qed.

Lemma characters_after_device_id_are_ignored_witness :
  set_audio_output_action demo_env (Some "0abc") initial_state
  = set_audio_output_action demo_env (Some "0") initial_state.
Proof.
  exact (proj2 (characters_after_device_id_are_ignored demo_env "0"%char ""
                  "bc" "a"%char initial_state eq_refl eq_refl)).
Defined.

(** * How a run may stop *)

Section StopsIn.

Context {Q : Stop -> Prop}.

Lemma stops_ret {A} (a : A) : stops_in Q (ret a).
Proof. intro s. exact I. Qed.

Lemma stops_halt {A} h : Q h -> stops_in Q (@halt A h).
Proof. intros Hq s. exact Hq. Qed.

Lemma stops_bind {A B} (m : M A) (k : A -> M B) :
  stops_in Q m -> (forall a, stops_in Q (k a)) -> stops_in Q (bind m k).
Proof.
  intros Hm Hk s. unfold bind. specialize (Hm s).
  destruct (m s) as [a s'|h s']; [apply Hk | exact Hm].
Qed.

End StopsIn.

Lemma scan_at_stops env argv k :
  stops_in (scan_stop argv) (scan_at env argv (S k)).
Proof.
  intro s. unfold scan_at.
  destruct (nth_error argv (S k)) as [t|] eqn:Ht; [|exact I].
  rewrite dispatch_commands.
  destruct (is_help_option t); [rewrite (help_run env); now left|].
  destruct (is_version_option t); [rewrite version_run; now left|].
  assert (Hlast : nth_error argv (S k + 1) = None ->
                  List.length argv = S (S k)).
  { intro Hn. apply nth_error_None in Hn.
    assert (S k < List.length argv)%nat
      by (apply nth_error_Some; rewrite Ht; discriminate).
    lia. }
  destruct (is_input_option t) eqn:Hi.
  { destruct (nth_error argv (S k + 1)) as [a|] eqn:Ha; [exact I|].
    exists k, t. rewrite Hi. auto. }
  destruct (is_list_option t); [rewrite list_audio_devices_run; now left|].
  destruct (is_output_option t) eqn:Ho; [|exact I].
  destruct (nth_error argv (S k + 1)) as [a|] eqn:Ha.
  - replace (S k + 1)%nat with (S (S k)) in Ha by lia.
    destruct (stoi a) as [e|v] eqn:Hv.
    + unfold set_audio_output_action, std_string, bind, ret, halt.
      rewrite Hv. exists k, t, a. auto.
    + destruct (Z.eq_dec (id (get_audio_device env (to_unsigned v)))
                         (to_unsigned v)) as [Hid|Hid].
      * now rewrite (set_audio_output_known env a v s Hv Hid).
      * rewrite (set_audio_output_unknown env a v s Hv Hid). now right.
  - exists k, t. rewrite Ho, orb_true_r. auto.
Qed.

Lemma scan_stops env argv count : forall k,
  stops_in (scan_stop argv) (scan env argv (S k) count).
Proof.
  induction count as [|c IH]; intro k; cbn [scan].
  - apply stops_ret.
  - apply stops_bind; [apply scan_at_stops | intros _; apply IH].
Qed.

Lemma parse_stops env argv :
  stops_in (scan_stop argv) (parse_command_line_arguments env argv).
Proof.
  unfold parse_command_line_arguments.
  destruct (List.length argv <? 2)%nat.
  - intro s. rewrite (help_run env). now left.
  - apply stops_bind; [intro s; exact I | intros _; apply scan_stops].
Qed.

Lemma play_at_loop env sched p w s1 :
  In TrackPlay (trace (at_loop env sched p w s1)).
Proof.
  rewrite at_loop_trace. rewrite !in_app_iff. cbn [In]. intuition auto.
Qed.

(** Every run: stopped inside the option scan, or past it with one of
    three outcomes. *)
Lemma main_outcome_cases env sched argv :
  (exists h s,
     parse_command_line_arguments env argv initial_state = Halt h s
     /\ main env sched argv = (h, s) /\ scan_stop argv h
     /\ Forall console (trace s))
  \/ (exists s1,
        parse_command_line_arguments env argv initial_state = Next tt s1
        /\ (fst (main env sched argv) = Returned 0
            \/ fst (main env sched argv) = Returned (-1)
            \/ fst (main env sched argv) = Polling
               /\ In TrackPlay (trace (snd (main env sched argv))))).
Proof.
  pose proof (parse_stops env argv initial_state) as Hstop.
  destruct (parse_command_line_arguments env argv initial_state)
    as [[] s1|h s] eqn:Hparse.
  - right. exists s1. split; [reflexivity|].
    destruct (input_file_path s1) as [p|] eqn:Hpath.
    + destruct (is_wav_file env p) eqn:Hwav.
      * destruct (get_track env) eqn:Htrack.
        -- destruct (read_wav_file env p) as [w|] eqn:Hread.
           ++ rewrite (main_playing _ sched _ _ _ _
                         Hparse Hpath Hwav Htrack Hread).
              destruct (at_loop_installed env sched p w s1) as [Hs _].
              destruct (after_loop_outcome sched _ Hs) as [H|H]; auto.
              right. right. split; [exact H|].
              destruct (after_loop_trace (fun _ => True) sched
                          (at_loop env sched p w s1)) as (d & -> & _); auto.
              apply in_or_app. left. apply play_at_loop.
           ++ right. left.
              erewrite main_of_setup_halt; [reflexivity|].
              rewrite (session_setup_run _ _ _ _ _ Hparse), Hpath, Hwav.
              unfold bind. now rewrite start_playback_run, Htrack, Hread.
        -- right. left.
           erewrite main_of_setup_halt; [reflexivity|].
           rewrite (session_setup_run _ _ _ _ _ Hparse), Hpath, Hwav.
           unfold bind. now rewrite start_playback_run, Htrack.
      * right. left.
        erewrite main_of_setup_halt; [reflexivity|].
        now rewrite (session_setup_run _ _ _ _ _ Hparse), Hpath, Hwav.
    + left.
      erewrite main_of_setup_halt; [reflexivity|].
      now rewrite (session_setup_run _ _ _ _ _ Hparse), Hpath.
  - left. exists h, s.
    destruct (main_trace_of_halted_parse env sched argv h s Hparse).
    auto.
Qed.

(** X9.  The statuses of the process.  [std::exit] is called with 0 or 1
    only, and only from the option scan: nothing but console output has
    happened by then, no log line, no engine thread, no track; the same holds
    when the exception of [std::stoi] escapes.  [main] returns 0 or -1 only.
    A run that is still in its loop when the schedule ends has called play.
    Nothing is stated of a run that stops in another way. *)
Theorem exit_and_return_statuses
    (env : Collaborators) (sched : Schedule) (argv : list string) :
  let r := main env sched argv in
  match fst r with
  | Exited c => (c = 0 \/ c = 1) /\ Forall console (trace (snd r))
  | Uncaught _ => Forall console (trace (snd r))
  | Returned c => c = 0 \/ c = -1
  | Polling => In TrackPlay (trace (snd r))
  | Undefined | Killed => True
  end.
Proof.
  cbv zeta.
  destruct (main_outcome_cases env sched argv)
    as [(h & s & _ & -> & Hq & Hc) | (s1 & _ & [H | [H | [H Hp]]])].
  - cbn [fst snd]. destruct h; cbn [scan_stop] in Hq; auto; contradiction.
  - rewrite H. now left.
  - rewrite H. now right.
  - rewrite H. exact Hp.
Qed.

(** X10.  The option scan hands a null pointer to the string construction
    of an action only for a dangling option: when the scan stops there (the
    stop [Undefined] of [std_string]), the last token of the command line
    is an input-file or output-device option.  [argv[i + 1]] is replaced by
    [nullptr] for the last token alone, and only these two actions read
    their argument. *)
Theorem null_argument_needs_a_dangling_option
    (env : Collaborators) (argv : list string) (s : State) :
  parse_command_line_arguments env argv initial_state = Halt Undefined s ->
  exists k t,
    List.length argv = S (S k) /\ nth_error argv (S k) = Some t
    /\ (is_input_option t || is_output_option t)%bool = true.
Proof.
  intro Hu.
  pose proof (parse_stops env argv initial_state) as Hq.
  rewrite Hu in Hq. exact Hq.
Qed.

Lemma null_argument_needs_a_dangling_option_witness :
  exists k t,
    List.length ["prog"; "-i"; "valid.wav"; "-o"] = S (S k)
    /\ nth_error ["prog"; "-i"; "valid.wav"; "-o"] (S k) = Some t
    /\ (is_input_option t || is_output_option t)%bool = true.
Proof.
  exact (null_argument_needs_a_dangling_option demo_env
           ["prog"; "-i"; "valid.wav"; "-o"]
           (final (parse_command_line_arguments demo_env
                     ["prog"; "-i"; "valid.wav"; "-o"] initial_state))
           eq_refl).
Defined.



(** * The shape of a session *)

Lemma main_trace_cases env sched argv :
  exists c e,
    let s := final (parse_command_line_arguments env argv initial_state) in
    Forall console c
    /\ trace (snd (main env sched argv))
       = c ++ session_effects env sched (event_callback_installed s)
                              (audio_output_device_id s) e
    /\ Forall loop_effect (loop_of e).
Proof.
  destruct (parse_command_line_arguments env argv initial_state)
    as [[] s1|h s] eqn:Hparse; cbn [final].
  - pose proof (parsed_trace env argv s1 Hparse) as Hc.
    exists (trace s1).
    assert (Hhalt : forall h s e,
      session_setup env sched argv initial_state = Halt h s ->
      trace s = trace s1
                ++ session_effects env sched (event_callback_installed s1)
                                   (audio_output_device_id s1) e ->
      loop_of e = [] ->
      exists e,
        Forall console (trace s1)
        /\ trace (snd (main env sched argv))
           = trace s1
             ++ session_effects env sched (event_callback_installed s1)
                                (audio_output_device_id s1) e
        /\ Forall loop_effect (loop_of e)).
    { intros h s e Hs Ht He. exists e.
      rewrite (main_of_setup_halt _ _ _ _ _ Hs), He. cbn [snd]. auto. }
    pose proof (session_setup_run env sched argv _ _ Hparse) as Hrun.
    destruct (input_file_path s1) as [p|] eqn:Hpath.
    + destruct (is_wav_file env p) eqn:Hwav.
      * unfold bind in Hrun. rewrite start_playback_run in Hrun.
        destruct (get_track env) eqn:Htrack.
        -- destruct (read_wav_file env p) as [w|] eqn:Hread.
           ++ destruct (after_loop_trace loop_effect sched
                          (at_loop env sched p w s1)) as (d & T & F);
                try (intros; exact I); try exact I.
              exists (Played p w d).
              rewrite (main_playing _ sched _ _ _ _
                         Hparse Hpath Hwav Htrack Hread), T, at_loop_trace.
              split; [exact Hc|]. split; [|exact F].
              unfold session_effects, setup_effects. now repeat norm_app.
           ++ apply (Hhalt _ _ (WavUnreadable p) Hrun); [|reflexivity].
              unfold session_effects, setup_effects, add_effects,
                track_requested, announced.
              cbn [trace event_callback_installed audio_output_device_id].
              now repeat norm_app.
        -- apply (Hhalt _ _ (TrackFailed p) Hrun); [|reflexivity].
           unfold session_effects, setup_effects, add_effects,
             track_requested, announced.
           cbn [trace event_callback_installed audio_output_device_id].
           now repeat norm_app.
      * now apply (Hhalt _ _ (InvalidInputFile p) Hrun).
    + now apply (Hhalt _ _ NoInputFile Hrun).
  - destruct (main_trace_of_halted_parse env sched argv h s Hparse)
      as [Hm Hc].
    exists (trace s), StoppedInScan. rewrite Hm. cbn [snd session_effects].
    rewrite app_nil_r. repeat split; auto.
Qed.

(** ** Counting the calls of a session *)

Lemma filter_nil_of (f : Effect -> bool) (P : Effect -> Prop) l :
  (forall e, P e -> f e = false) -> Forall P l -> filter f l = [].
Proof.
  intros Hf. induction 1 as [|e l He _ IH]; simpl; auto.
  now rewrite (Hf e He).
Qed.

Section Counting.

Variable f : Effect -> bool.
Hypothesis f_console : forall e, console e -> f e = false.
Hypothesis f_loop : forall e, loop_effect e -> f e = false.

Lemma filter_handlers cb arrivals :
  filter f (flat_map (handler_effects cb) arrivals) = [].
Proof.
  apply (filter_nil_of f loop_effect); auto.
  apply handler_effects_Forall; intros; exact I.
Qed.

Lemma filter_session env sched cb dev_id e c :
  Forall console c ->
  Forall loop_effect (loop_of e) ->
  filter f (c ++ session_effects env sched cb dev_id e)
  = filter f (session_calls env dev_id e).
Proof.
  intros Hc Hl.
  rewrite filter_app, (filter_nil_of f console c f_console Hc). cbn [app].
  assert (Hlog : forall l m, f (Log l m) = false)
    by (intros; apply f_loop; exact I).
  assert (Hob : filter f (output_binding env dev_id)
                = filter f (output_calls env dev_id)).
  { unfold output_binding, output_calls, resolved_output.
    destruct (match dev_id with
              | Some i => Some (get_audio_device env i)
              | None => get_default_audio_output_device env
              end); cbn [filter]; now rewrite ?Hlog. }
  destruct e; cbn [session_effects session_calls loop_of] in *;
    unfold setup_effects;
    rewrite ?filter_app, ?filter_handlers, ?Hob; cbn [filter app];
    rewrite ?Hlog, ?app_nil_r; auto;
    try rewrite (filter_nil_of f loop_effect loop f_loop Hl);
    rewrite ?app_nil_r;
    repeat match goal with
           | |- context [f ?e] => destruct (f e)
           end;
    cbn [app]; reflexivity.
Qed.

End Counting.

Lemma main_calls env sched argv (f : Effect -> bool) :
  (forall e, console e -> f e = false) ->
  (forall e, loop_effect e -> f e = false) ->
  exists e,
    filter f (trace (snd (main env sched argv)))
    = filter f (session_calls env
                  (audio_output_device_id
                     (final (parse_command_line_arguments env argv
                                                          initial_state)))
                  e).
Proof.
  intros Hc Hl.
  destruct (main_trace_cases env sched argv) as (c & e & Fc & -> & Fl).
  exists e. now apply filter_session.
Qed.

Lemma session_call_not_console e : console e -> is_session_call e = false.
Proof. now destruct e. Qed.

Lemma session_call_not_loop e : loop_effect e -> is_session_call e = false.
Proof. now destruct e. Qed.

Lemma filter_all (f : Effect -> bool) l :
  Forall (fun e => f e = true) l -> filter f l = l.
Proof.
  induction 1 as [|e l He _ IH]; simpl; auto. now rewrite He, IH.
Qed.

Lemma session_calls_are_calls env dev_id e :
  filter is_session_call (session_calls env dev_id e)
  = session_calls env dev_id e.
Proof.
  apply filter_all.
  destruct e; cbn [session_calls]; unfold output_calls;
    try destruct (resolved_output env dev_id);
    repeat constructor.
Qed.

(** X12.  Seen through the calls that set a session up, every run is an
    initial part of one fixed sequence: start the engine thread, install
    the interrupt handler, add the track, bind the output (when a device
    resolves), bind the input, set the callback, play.  The run stops
    after none of them, after the third, after the output binding, or
    goes through to play; so each call is made at most once, and play is
    made only when all the others were. *)
Theorem session_calls_follow_one_sequence
    (env : Collaborators) (sched : Schedule) (argv : list string) :
  let tr := trace (snd (main env sched argv)) in
  let dev_id :=
    audio_output_device_id
      (final (parse_command_line_arguments env argv initial_state)) in
  (exists e, filter is_session_call tr = session_calls env dev_id e)
  /\ (count_of is_play tr <= count_of is_input_bind tr)%nat
  /\ (count_of is_input_bind tr <= count_of is_add_track tr)%nat
  /\ (count_of is_output_bind tr <= count_of is_add_track tr)%nat
  /\ (count_of is_add_track tr <= count_of is_engine_start tr)%nat
  /\ (count_of is_engine_start tr <= 1)%nat.
Proof.
  cbv zeta. split.
  - destruct (main_calls env sched argv is_session_call
                session_call_not_console session_call_not_loop) as (e & He).
    exists e. now rewrite He, session_calls_are_calls.
  - destruct (main_trace_cases env sched argv) as (c & e & Fc & -> & Fl).
    unfold count_of.
    rewrite !filter_session; auto; try (now intros []).
    destruct e; cbn [session_calls]; unfold output_calls;
      try destruct (resolved_output env _);
      cbn; lia.
Qed.

(** ** What comes before what *)

Lemma prefix_before {A} (b : A) (front : list A) :
  forall back pre post,
    ~ In b front ->
    front ++ back = pre ++ b :: post ->
    exists rest, pre = front ++ rest.
Proof.
  induction front as [|a front IH]; intros back pre post Hnot Heq.
  - now exists pre.
  - destruct pre as [|a' pre]; cbn [app] in Heq.
    + injection Heq as -> _. elim Hnot. now left.
    + injection Heq as <- Heq.
      destruct (IH back pre post) as (rest & ->); auto.
      * intro H. apply Hnot. now right.
      * now exists rest.
Qed.

Lemma quiet_console e : console e -> quiet e.
Proof. destruct e; intros []; repeat split. Qed.

(** A run up to its loop: quiet effects; what the loop added comes after
    play. *)
Lemma main_before_loop env sched argv :
  exists front loop,
    trace (snd (main env sched argv)) = front ++ loop
    /\ Forall quiet front
    /\ (loop = [] \/
        In EngineStartThread front /\ In SignalInstall front
        /\ In AddTrack front
        /\ (exists w, In (TrackAddAudioFileInput w) front)
        /\ In TrackSetEventCallback front /\ In TrackPlay front).
Proof.
  destruct (main_trace_cases env sched argv) as (c & e & Fc & -> & Fl).
  destruct quiet_all as (Q1&Q2&Q3&Q4&Q5&Q6&Q7&Q8&Q9&Q10&Q11).
  assert (Hc : Forall quiet c)
    by (eapply Forall_impl; [apply quiet_console | exact Fc]).
  assert (Hob : forall dev_id, Forall quiet (output_binding env dev_id)).
  { intro dev_id. unfold output_binding.
    destruct (match dev_id with
              | Some i => Some (get_audio_device env i)
              | None => get_default_audio_output_device env
              end); repeat constructor; auto. }
  assert (Hsetup : forall cb p, Forall quiet (setup_effects sched cb p)).
  { intros cb p. unfold setup_effects.
    repeat (apply Forall_app; split);
      auto using quiet_handler_effects; repeat constructor; auto. }
  destruct e as [| | p | p | p | p w loop].
  1-5: match goal with
       | |- exists front loop, ?tr = _ /\ _ => exists tr, []
       end;
       (split; [symmetry; apply app_nil_r|]); (split; [|now left]);
       cbn [session_effects];
       repeat (apply Forall_app; split);
       auto using quiet_handler_effects; repeat constructor; auto.
  pose (s := final (parse_command_line_arguments env argv initial_state)).
  exists (c ++ setup_effects sched (event_callback_installed s) p
            ++ output_binding env (audio_output_device_id s)
            ++ [TrackAddAudioFileInput w;
                Log INFO ("Set WAV file as audio input: " ++ p);
                TrackSetEventCallback; TrackPlay]
            ++ flat_map (handler_effects true) (after_play sched)), loop.
  split; [cbn [session_effects]; now rewrite <- !app_assoc|].
  split.
  - repeat (apply Forall_app; split);
      auto using quiet_handler_effects; repeat constructor; auto.
  - right. unfold setup_effects.
    repeat split; try (exists w); rewrite !in_app_iff; cbn [In];
      intuition auto.
Qed.

Lemma main_play_split env sched argv :
  Forall (fun x => is_play x = false) (trace (snd (main env sched argv)))
  \/ exists front back,
       trace (snd (main env sched argv)) = front ++ TrackPlay :: back
       /\ Forall (fun x => is_play x = false) front
       /\ In EngineStartThread front /\ In SignalInstall front
       /\ In AddTrack front
       /\ (exists w, In (TrackAddAudioFileInput w) front)
       /\ In TrackSetEventCallback front.
Proof.
  destruct (main_trace_cases env sched argv) as (c & e & Fc & -> & Fl).
  pose (s := final (parse_command_line_arguments env argv initial_state)).
  fold s.
  assert (Hc : Forall (fun x => is_play x = false) c).
  { eapply Forall_impl; [|exact Fc]. now intros []. }
  assert (Hob : Forall (fun x => is_play x = false)
                       (output_binding env (audio_output_device_id s))).
  { unfold output_binding.
    destruct (match audio_output_device_id s with
              | Some i => Some (get_audio_device env i)
              | None => get_default_audio_output_device env
              end); repeat constructor. }
  assert (Hsetup : forall p,
            Forall (fun x => is_play x = false)
                   (setup_effects sched (event_callback_installed s) p)).
  { intro p. unfold setup_effects.
    repeat (apply Forall_app; split);
      try (apply handler_effects_Forall; intros; reflexivity);
      repeat constructor. }
  destruct e as [| | p | p | p | p w loop].
  1-5: left; cbn [session_effects];
       repeat (apply Forall_app; split); auto;
       try (apply handler_effects_Forall; intros; reflexivity);
       repeat constructor.
  right.
  exists (c ++ setup_effects sched (event_callback_installed s) p
            ++ output_binding env (audio_output_device_id s)
            ++ [TrackAddAudioFileInput w;
                Log INFO ("Set WAV file as audio input: " ++ p);
                TrackSetEventCallback]),
         (flat_map (handler_effects true) (after_play sched) ++ loop).
  split; [cbn [session_effects]; now repeat norm_app|].
  split.
  - repeat (apply Forall_app; split); auto;
      try (apply handler_effects_Forall; intros; reflexivity);
      repeat constructor.
  - unfold setup_effects.
    repeat split; try (exists w); rewrite !in_app_iff; cbn [In];
      intuition auto.
Qed.

(** X13.  Play is the last step of the setup: in every run, whatever
    precedes a call of play contains the start of the engine thread, the
    installation of the interrupt handler, the creation of the track, the
    binding of an input and the setting of the callback. *)
Theorem play_comes_after_the_setup
    (env : Collaborators) (sched : Schedule) (argv : list string)
    (pre post : list Effect) :
  trace (snd (main env sched argv)) = pre ++ TrackPlay :: post ->
  In EngineStartThread pre /\ In SignalInstall pre /\ In AddTrack pre
  /\ (exists w, In (TrackAddAudioFileInput w) pre)
  /\ In TrackSetEventCallback pre.
Proof.
  intro Htr.
  destruct (main_play_split env sched argv)
    as [Hno | (front & back & Hf & Hno & H1 & H2 & H3 & (w & H4) & H5)].
  - exfalso. rewrite Htr in Hno. apply Forall_app in Hno as [_ Hno].
    inversion Hno as [|x l Hx _]. discriminate Hx.
  - destruct (prefix_before TrackPlay front (TrackPlay :: back) pre post)
      as (rest & ->).
    + intro H. rewrite Forall_forall in Hno. now specialize (Hno _ H).
    + now rewrite <- Hf.
    + repeat split; try (exists w); apply in_or_app; now left.
Qed.

Lemma play_comes_after_the_setup_witness :
  let tr := trace (snd (main demo_env sched_engine_down
                             ["prog"; "-i"; "valid.wav"])) in
  In EngineStartThread (firstn 10 tr)
  /\ In SignalInstall (firstn 10 tr) /\ In AddTrack (firstn 10 tr)
  /\ (exists w, In (TrackAddAudioFileInput w) (firstn 10 tr))
  /\ In TrackSetEventCallback (firstn 10 tr).
Proof.
  cbv zeta.
  apply (play_comes_after_the_setup demo_env sched_engine_down
           ["prog"; "-i"; "valid.wav"]
           (firstn 10 (trace (snd (main demo_env sched_engine_down
                                        ["prog"; "-i"; "valid.wav"]))))
           (skipn 11 (trace (snd (main demo_env sched_engine_down
                                       ["prog"; "-i"; "valid.wav"]))))).
  vm_compute. reflexivity.
Defined.

(** X14.  Teardown comes only after play: in every run, whatever
    precedes a call that stops transport or stops the engine thread
    contains the call of play, hence the whole setup. *)
Theorem teardown_comes_after_play
    (env : Collaborators) (sched : Schedule) (argv : list string)
    (x : Effect) (pre post : list Effect) :
  is_teardown x = true ->
  trace (snd (main env sched argv)) = pre ++ x :: post ->
  In TrackPlay pre.
Proof.
  intros Hx Htr.
  destruct (main_before_loop env sched argv)
    as (front & loop & Hf & Hq & Hloop).
  assert (Hnot : ~ In x front).
  { intro H. rewrite Forall_forall in Hq.
    destruct (Hq _ H) as (T & _). congruence. }
  destruct Hloop as [-> | (_ & _ & _ & _ & _ & Hplay)].
  - exfalso. apply Hnot. rewrite app_nil_r in Hf. rewrite <- Hf, Htr.
    apply in_or_app. right. now left.
  - destruct (prefix_before x front loop pre post Hnot) as (rest & ->).
    + now rewrite <- Hf.
    + apply in_or_app. now left.
Qed.

Lemma teardown_comes_after_play_witness :
  let tr := trace (snd (main demo_env sched_finished_then_sigint
                             ["prog"; "-i"; "valid.wav"])) in
  In TrackPlay (firstn 21 tr).
Proof.
  cbv zeta.
  apply (teardown_comes_after_play demo_env sched_finished_then_sigint
           ["prog"; "-i"; "valid.wav"] TrackStop
           (firstn 21 (trace (snd (main demo_env sched_finished_then_sigint
                                        ["prog"; "-i"; "valid.wav"]))))
           (skipn 22 (trace (snd (main demo_env sched_finished_then_sigint
                                       ["prog"; "-i"; "valid.wav"]))))).
  - reflexivity.
  - vm_compute. reflexivity.
Defined.

(** * More ends of a session *)

Lemma setup_halt_trace env sched argv s1 h s e :
  parse_command_line_arguments env argv initial_state = Next tt s1 ->
  session_setup env sched argv initial_state = Halt h s ->
  trace s = trace s1 ++ e ->
  main env sched argv = (h, s)
  /\ trace (snd (main env sched argv)) = trace s1 ++ e
  /\ Forall console (trace s1).
Proof.
  intros Hparse Hs Ht.
  rewrite (main_of_setup_halt _ _ _ _ _ Hs). cbn [snd].
  repeat split; auto. now apply (parsed_trace env argv).
Qed.

(** X15.  A file that passes the WAV check but cannot be read is fatal
    after the session has begun: the engine thread has been started, the
    track created and the output device bound (when one resolves); [main]
    then logs "Failed to read WAV file: <path>" and returns -1 without
    binding an input, setting the callback, calling play, or stopping
    anything. *)
Theorem unreadable_wav_file_is_fatal
    (env : Collaborators) (sched : Schedule) (argv : list string)
    (s1 : State) (p : string) :
  parse_command_line_arguments env argv initial_state = Next tt s1 ->
  input_file_path s1 = Some p ->
  is_wav_file env p = true ->
  get_track env = true ->
  read_wav_file env p = None ->
  let r := main env sched argv in
  r = (Returned (-1),
       add_effects
         (output_binding env (audio_output_device_id s1)
          ++ [Log ERROR ("Failed to read WAV file: " ++ p)])
         (track_requested sched (announced p s1)))
  /\ filter is_session_call (trace (snd r))
     = [EngineStartThread; SignalInstall; AddTrack]
       ++ output_calls env (audio_output_device_id s1)
  /\ teardown_calls (trace (snd r)) = [].
Proof.
  intros Hparse Hpath Hwav Htrack Hread r.
  assert (Hs : session_setup env sched argv initial_state
               = Halt (Returned (-1))
                   (add_effects
                      (output_binding env (audio_output_device_id s1)
                       ++ [Log ERROR ("Failed to read WAV file: " ++ p)])
                      (track_requested sched (announced p s1)))).
  { rewrite (session_setup_run _ _ _ _ _ Hparse), Hpath, Hwav.
    unfold bind. fold (announced p s1).
    now rewrite start_playback_run, Htrack, Hread. }
  destruct (setup_halt_trace env sched argv s1 _ _
              (session_effects env sched (event_callback_installed s1)
                               (audio_output_device_id s1) (WavUnreadable p))
              Hparse Hs) as (Hr & Ht & Hc).
  { unfold session_effects, setup_effects, add_effects, track_requested,
      announced.
    cbn [trace event_callback_installed audio_output_device_id].
    now repeat norm_app. }
  subst r. split; [exact Hr|]. rewrite Ht. split.
  - assert (Hl : Forall loop_effect (loop_of (WavUnreadable p)))
      by constructor.
    rewrite (filter_session is_session_call session_call_not_console
               session_call_not_loop env sched _ _ (WavUnreadable p)
               (trace s1) Hc Hl).
    apply (session_calls_are_calls env _ (WavUnreadable p)).
  - apply quiet_facts.
    destruct quiet_all as (Q1&Q2&Q3&Q4&Q5&Q6&Q7&Q8&Q9&Q10&Q11).
    cbn [session_effects]. unfold setup_effects, output_binding.
    repeat (apply Forall_app; split);
      auto using quiet_handler_effects;
      try (eapply Forall_impl; [apply quiet_console | exact Hc]);
      try destruct (match audio_output_device_id s1 with
                    | Some i => Some (get_audio_device env i)
                    | None => get_default_audio_output_device env
                    end);
      repeat constructor; auto.
Qed.

Lemma unreadable_wav_file_is_fatal_witness :
  fst (main demo_env_unreadable sched_finished_then_sigint
            ["prog"; "-i"; "valid.wav"]) = Returned (-1)
  /\ filter is_session_call
       (trace (snd (main demo_env_unreadable sched_finished_then_sigint
                         ["prog"; "-i"; "valid.wav"])))
     = [EngineStartThread; SignalInstall; AddTrack;
        TrackAddAudioDeviceOutput speakers].
Proof.
  destruct (unreadable_wav_file_is_fatal demo_env_unreadable
              sched_finished_then_sigint ["prog"; "-i"; "valid.wav"]
              (with_input_file_path "valid.wav"
                 (scan_start ["prog"; "-i"; "valid.wav"]))
              "valid.wav" eq_refl eq_refl eq_refl eq_refl eq_refl)
    as (H1 & H2 & _).
  split; [exact (f_equal fst H1) | exact H2].
Defined.

(** ** The output device of a session *)

Lemma main_trace_played env sched argv s1 p w :
  parse_command_line_arguments env argv initial_state = Next tt s1 ->
  input_file_path s1 = Some p ->
  is_wav_file env p = true ->
  get_track env = true ->
  read_wav_file env p = Some w ->
  exists d,
    Forall loop_effect d
    /\ Forall console (trace s1)
    /\ trace (snd (main env sched argv))
       = trace s1
         ++ session_effects env sched (event_callback_installed s1)
                            (audio_output_device_id s1) (Played p w d).
Proof.
  intros Hparse Hpath Hwav Htrack Hread.
  destruct (after_loop_trace loop_effect sched (at_loop env sched p w s1))
    as (d & T & F); try (intros; exact I); try exact I.
  exists d. split; [exact F|].
  split; [now apply (parsed_trace env argv)|].
  rewrite (main_playing _ sched _ _ _ _ Hparse Hpath Hwav Htrack Hread),
    T, at_loop_trace.
  unfold session_effects, setup_effects. now repeat norm_app.
Qed.

Lemma main_trace_unreadable env sched argv s1 p :
  parse_command_line_arguments env argv initial_state = Next tt s1 ->
  input_file_path s1 = Some p ->
  is_wav_file env p = true ->
  get_track env = true ->
  read_wav_file env p = None ->
  Forall console (trace s1)
  /\ trace (snd (main env sched argv))
     = trace s1
       ++ session_effects env sched (event_callback_installed s1)
                          (audio_output_device_id s1) (WavUnreadable p).
Proof.
  intros Hparse Hpath Hwav Htrack Hread.
  assert (Hs : session_setup env sched argv initial_state
               = Halt (Returned (-1))
                   (add_effects
                      (output_binding env (audio_output_device_id s1)
                       ++ [Log ERROR ("Failed to read WAV file: " ++ p)])
                      (track_requested sched (announced p s1)))).
  { rewrite (session_setup_run _ _ _ _ _ Hparse), Hpath, Hwav.
    unfold bind. fold (announced p s1).
    now rewrite start_playback_run, Htrack, Hread. }
  destruct (setup_halt_trace env sched argv s1 _ _
              (session_effects env sched (event_callback_installed s1)
                               (audio_output_device_id s1) (WavUnreadable p))
              Hparse Hs) as (_ & Ht & Hc); auto.
  unfold session_effects, setup_effects, add_effects, track_requested,
    announced.
  cbn [trace event_callback_installed audio_output_device_id].
  now repeat norm_app.
Qed.

(** X16.  A session whose track was created binds exactly the device of
    line 149, once: with a configured id the device the manager returns
    for it, whose id is that id, the default device being left aside;
    without one the default device, or nothing when there is none. *)
Theorem session_binds_the_resolved_output
    (env : Collaborators) (sched : Schedule) (argv : list string)
    (s1 : State) (p : string) :
  parse_command_line_arguments env argv initial_state = Next tt s1 ->
  input_file_path s1 = Some p ->
  is_wav_file env p = true ->
  get_track env = true ->
  filter is_output_bind (trace (snd (main env sched argv)))
  = match audio_output_device_id s1 with
    | Some i => [TrackAddAudioDeviceOutput (get_audio_device env i)]
    | None =>
        match get_default_audio_output_device env with
        | Some d => [TrackAddAudioDeviceOutput d]
        | None => []
        end
    end
  /\ match audio_output_device_id s1 with
     | Some i => id (get_audio_device env i) = i
     | None => True
     end.
Proof.
  intros Hparse Hpath Hwav Htrack. split.
  - assert (Hcalls : forall e,
      e = WavUnreadable p \/ (exists w d, e = Played p w d) ->
      filter is_output_bind
        (session_calls env (audio_output_device_id s1) e)
      = match audio_output_device_id s1 with
        | Some i => [TrackAddAudioDeviceOutput (get_audio_device env i)]
        | None =>
            match get_default_audio_output_device env with
            | Some d => [TrackAddAudioDeviceOutput d]
            | None => []
            end
        end).
    { intros e [-> | (w & d & ->)]; cbn [session_calls];
        unfold output_calls, resolved_output;
        destruct (audio_output_device_id s1);
        try destruct (get_default_audio_output_device env); reflexivity. }
    destruct (read_wav_file env p) as [w|] eqn:Hread.
    + destruct (main_trace_played env sched argv s1 p w
                  Hparse Hpath Hwav Htrack Hread) as (d & Fd & Fc & ->).
      rewrite filter_session; auto; try (now intros []).
      apply Hcalls. right. eauto.
    + destruct (main_trace_unreadable env sched argv s1 p
                  Hparse Hpath Hwav Htrack Hread) as (Fc & ->).
      rewrite filter_session; auto; try (now intros []);
        try (apply Hcalls; now left); constructor.
  - pose proof (valid_parse env argv initial_state I) as Hv.
    rewrite Hparse in Hv. cbn [final] in Hv. unfold output_id_is_valid in Hv.
    destruct (audio_output_device_id s1); [apply Hv | exact I].
Qed.

Lemma session_binds_the_resolved_output_witness :
  filter is_output_bind
    (trace (snd (main demo_env sched_engine_down
                      ["prog"; "-o"; "0"; "-i"; "valid.wav"])))
  = [TrackAddAudioDeviceOutput speakers].
Proof.
  exact (proj1 (session_binds_the_resolved_output demo_env sched_engine_down
                  ["prog"; "-o"; "0"; "-i"; "valid.wav"]
                  (final (parse_command_line_arguments demo_env
                            ["prog"; "-o"; "0"; "-i"; "valid.wav"]
                            initial_state))
                  "valid.wav" eq_refl eq_refl eq_refl eq_refl)).
Defined.

(** * More on the loop *)

Lemma fires_without_callback cb a : fires cb a = true -> fires true a = true.
Proof. destruct a as [|[|code]]; destruct cb; auto. Qed.

Lemma no_trigger_any_callback cb arrivals :
  existsb (fires true) arrivals = false ->
  existsb (fires cb) arrivals = false.
Proof.
  induction arrivals as [|a rest IH]; cbn [existsb]; auto.
  intro H. apply orb_false_elim in H as [Ha Hr].
  rewrite (IH Hr), orb_false_r.
  destruct (fires cb a) eqn:Hf; auto.
  apply fires_without_callback in Hf. congruence.
Qed.

Lemma no_sleep_in_handlers cb arrivals :
  filter is_sleep (flat_map (handler_effects cb) arrivals) = [].
Proof.
  apply (filter_nil_of is_sleep (fun e => is_sleep e = false)); auto.
  apply handler_effects_Forall; reflexivity.
Qed.

(** One turn in which the engine runs and the flag is read as true. *)
Lemma poll_loop_turn t rest s :
  sigint_handler_installed s = true ->
  is_running t = true ->
  running (after_arrivals (before_flag_read t) s) = true ->
  poll_loop (t :: rest) s
  = poll_loop rest
      (after_arrivals (during_sleep t)
         (add_effects [ReadRunning true; SleepFor 100]
            (after_arrivals (before_flag_read t)
               (add_effects [EngineIsRunning true] s)))).
Proof.
  intros Hs Hrun Hflag. cbn [poll_loop]. unfold bind, emit, read_running.
  rewrite Hrun. rewrite (deliver_all_run (before_flag_read t)) by exact Hs.
  cbv beta iota.
  match goal with
  | |- context [negb (running ?x)] =>
      change (running x) with (running (after_arrivals (before_flag_read t) s))
  end.
  rewrite Hflag. cbn [negb].
  rewrite (deliver_all_run (during_sleep t)) by exact Hs.
  f_equal. unfold after_arrivals, add_effects.
  cbn [program_name running input_file_path audio_output_device_id
       sigint_handler_installed event_callback_installed trace].
  unfold after_arrivals in Hflag. cbn [running] in Hflag.
  rewrite Hflag. f_equal. now repeat norm_app.
Qed.

Lemma poll_loop_sleeps ticks : forall s,
  sigint_handler_installed s = true ->
  event_callback_installed s = true ->
  running s = true ->
  forallb uneventful ticks = true ->
  exists s' d,
    poll_loop ticks s = Halt Polling s'
    /\ running s' = true
    /\ trace s' = trace s ++ d
    /\ Forall quiet d
    /\ filter is_sleep d = repeat (SleepFor 100) (List.length ticks).
Proof.
  induction ticks as [|t ticks IH]; intros s Hs Hc Hr Hall.
  - exists s, []. cbn. rewrite app_nil_r. auto.
  - cbn [forallb] in Hall. apply andb_true_iff in Hall as [Ht Hall].
    unfold uneventful in Ht.
    apply andb_true_iff in Ht as [Ht Hsl].
    apply andb_true_iff in Ht as [Hrun Hbf].
    apply negb_true_iff in Hsl, Hbf.
    assert (Hflag : running (after_arrivals (before_flag_read t) s) = true).
    { unfold after_arrivals. cbn [running]. now rewrite Hr, Hc, Hbf. }
    rewrite (poll_loop_turn t ticks s Hs Hrun Hflag).
    set (s4 := after_arrivals (during_sleep t) _).
    destruct (IH s4) as (s' & d & Hp & Hr' & Ht' & Hq & Hn); auto.
    { subst s4. unfold after_arrivals, add_effects.
      cbn [running event_callback_installed]. now rewrite Hr, Hc, Hbf, Hsl. }
    exists s', ([EngineIsRunning true]
                ++ flat_map (handler_effects true) (before_flag_read t)
                ++ [ReadRunning true; SleepFor 100]
                ++ flat_map (handler_effects true) (during_sleep t)
                ++ d).
    split; [exact Hp|]. split; [exact Hr'|]. split; [|split].
    + rewrite Ht'. subst s4. unfold after_arrivals, add_effects.
      cbn [trace event_callback_installed]. rewrite Hc.
      now repeat norm_app.
    + repeat (apply Forall_app; split);
        auto using quiet_handler_effects; repeat constructor.
    + rewrite !filter_app, !no_sleep_in_handlers. cbn. now rewrite Hn.
Qed.

Lemma poll_loop_after_trigger (t : Tick) (rest : list Tick) (s : State) :
  sigint_handler_installed s = true ->
  running s = false ->
  poll_loop (t :: rest) s
  = Next tt
      (add_effects
         (EngineIsRunning (is_running t)
          :: (if is_running t
              then flat_map (handler_effects (event_callback_installed s))
                            (before_flag_read t)
                   ++ shutdown_sequence
              else []))
         s).
Proof.
  intros Hs Hr. cbn [poll_loop]. unfold bind at 1, emit at 1.
  destruct (is_running t).
  - unfold bind at 1. rewrite deliver_all_run by exact Hs.
    unfold bind at 1, read_running at 1.
    unfold after_arrivals at 1. cbn [running]. rewrite Hr. cbn [andb negb].
    unfold bind, LOG_INFO, emit, after_arrivals, add_effects, shutdown_sequence.
    cbn [program_name running input_file_path audio_output_device_id
         sigint_handler_installed event_callback_installed trace andb].
    rewrite Hr. cbn [andb]. f_equal. f_equal. now repeat norm_app.
  - unfold ret, add_effects. reflexivity.
Qed.

(** X17.  Once the flag is false the loop does not sleep again: its next
    turn asks the engine whether it runs and, if so, delivers what is
    pending, reads the flag, logs, stops transport and stops the engine
    thread; if not, it just leaves.  The turns that the schedule holds
    after this one are never run. *)
Theorem no_sleep_once_the_flag_is_false
    (t : Tick) (rest : list Tick) (s : State) :
  sigint_handler_installed s = true ->
  running s = false ->
  poll_loop (t :: rest) s
  = Next tt
      (add_effects
         (EngineIsRunning (is_running t)
          :: (if is_running t
              then flat_map (handler_effects (event_callback_installed s))
                            (before_flag_read t)
                   ++ shutdown_sequence
              else []))
         s).
Proof. apply poll_loop_after_trigger. Qed.

Lemma no_sleep_once_the_flag_is_false_witness :
  poll_loop [mkTick true [] []; mkTick true [] []]
            (final (sigint_handler
                      (at_loop demo_env sched_engine_down "valid.wav"
                               (WavHandle 0) initial_state)))
  = Next tt
      (add_effects (EngineIsRunning true :: shutdown_sequence)
         (final (sigint_handler
                   (at_loop demo_env sched_engine_down "valid.wav"
                            (WavHandle 0) initial_state)))).
Proof.
  exact (no_sleep_once_the_flag_is_false (mkTick true [] [])
           [mkTick true [] []]
           (final (sigint_handler
                     (at_loop demo_env sched_engine_down "valid.wav"
                              (WavHandle 0) initial_state)))
           eq_refl eq_refl).
Defined.

Lemma no_teardown_in_handlers cb arrivals :
  filter is_teardown (flat_map (handler_effects cb) arrivals) = [].
Proof.
  apply (filter_nil_of is_teardown (fun e => is_teardown e = false)); auto.
  apply handler_effects_Forall; reflexivity.
Qed.

(** X18.  A trigger that arrives while the loop sleeps is acted on at the
    very next turn, after that one sleep: the loop returns there, with
    stop transport and stop engine thread if the engine still runs, with
    neither if it does not. *)
Theorem trigger_during_sleep_ends_the_next_turn
    (t1 t2 : Tick) (rest : list Tick) (s : State) :
  sigint_handler_installed s = true ->
  event_callback_installed s = true ->
  running s = true ->
  is_running t1 = true ->
  existsb (fires true) (before_flag_read t1) = false ->
  existsb (fires true) (during_sleep t1) = true ->
  exists s',
    poll_loop (t1 :: t2 :: rest) s = Next tt s'
    /\ running s' = false
    /\ count_of is_sleep (trace s') = S (count_of is_sleep (trace s))
    /\ teardown_calls (trace s')
       = teardown_calls (trace s)
         ++ (if is_running t2 then [TrackStop; EngineStopThread] else []).
Proof.
  intros Hs Hc Hr Hrun Hbf Hsl.
  assert (Hflag : running (after_arrivals (before_flag_read t1) s) = true).
  { unfold after_arrivals. cbn [running]. now rewrite Hr, Hc, Hbf. }
  rewrite (poll_loop_turn t1 (t2 :: rest) s Hs Hrun Hflag).
  set (s4 := after_arrivals (during_sleep t1) _).
  assert (Hr4 : running s4 = false).
  { subst s4. unfold after_arrivals, add_effects.
    cbn [running event_callback_installed].
    now rewrite Hc, Hsl, andb_false_r. }
  rewrite (poll_loop_after_trigger t2 rest s4 Hs Hr4).
  eexists. split; [reflexivity|]. split; [exact Hr4|].
  unfold count_of, teardown_calls. subst s4.
  unfold after_arrivals, add_effects, shutdown_sequence.
  cbn [trace event_callback_installed]. rewrite Hc.
  split.
  - rewrite !filter_app, !no_sleep_in_handlers.
    destruct (is_running t2); cbn [filter is_sleep app];
      rewrite ?filter_app, ?no_sleep_in_handlers; cbn [filter is_sleep app];
      rewrite !length_app; cbn [List.length]; lia.
  - rewrite !filter_app, !no_teardown_in_handlers.
    destruct (is_running t2); cbn [filter is_teardown app];
      rewrite ?filter_app, ?no_teardown_in_handlers;
      cbn [filter is_teardown app]; now rewrite ?app_nil_r.
Qed.

Lemma trigger_during_sleep_ends_the_next_turn_witness :
  exists s',
    poll_loop (ticks sched_finished_then_sigint)
              (at_loop demo_env sched_finished_then_sigint "valid.wav"
                       (WavHandle 0) initial_state)
    = Next tt s'
    /\ running s' = false.
Proof.
  destruct (trigger_during_sleep_ends_the_next_turn
              (mkTick true [] [TrackEvent PlaybackFinished])
              (mkTick true [SIGINT] []) []
              (at_loop demo_env sched_finished_then_sigint "valid.wav"
                       (WavHandle 0) initial_state)
              eq_refl eq_refl eq_refl eq_refl eq_refl eq_refl)
    as (s' & H1 & H2 & _).
  exists s'. split; [exact H1 | exact H2].
Defined.

Lemma parsed_running env argv s1 :
  parse_command_line_arguments env argv initial_state = Next tt s1 ->
  running s1 = true.
Proof.
  intro Hparse.
  destruct (parse_console env argv initial_state) as [d _ F R _ _].
  rewrite Hparse in R. cbn [final] in R. rewrite R. cbn [running initial_state].
  assert (H : existsb is_flag_write d = false).
  { clear R. induction F as [|e d He _ IH]; cbn; auto.
    rewrite IH. now destruct e. }
  now rewrite H.
Qed.

Lemma at_loop_running env sched p w s1 :
  running s1 = true ->
  existsb (fires true) (after_signal_install sched) = false ->
  existsb (fires true) (after_play sched) = false ->
  running (at_loop env sched p w s1) = true.
Proof.
  intros Hr H1 H2.
  unfold at_loop, after_arrivals, playing, announced, add_effects,
    with_event_callback, track_requested.
  cbn [running event_callback_installed].
  now rewrite Hr, H2, (no_trigger_any_callback _ _ H1).
Qed.

Lemma at_loop_plain (f : Effect -> bool) env sched p w s1 :
  (forall e, console e -> f e = false) ->
  (forall e, is_session_call e = true -> f e = false) ->
  (forall l m, f (Log l m) = false) ->
  f (WriteRunning false) = false ->
  Forall console (trace s1) ->
  filter f (trace (at_loop env sched p w s1)) = [].
Proof.
  intros Hc Hcall Hlog Hw Fc.
  apply (filter_nil_of f (fun e => f e = false)); auto.
  rewrite at_loop_trace. unfold output_binding.
  repeat (apply Forall_app; split);
    try (apply handler_effects_Forall; auto);
    try (eapply Forall_impl; [exact Hc | exact Fc]);
    try destruct (match audio_output_device_id s1 with
                  | Some i => Some (get_audio_device env i)
                  | None => get_default_audio_output_device env
                  end);
    repeat constructor; auto.
Qed.

(** X19.  The loop ends only on an event.  In a session that reaches the
    loop, if no interrupt and no playback-finished event ever arrives and
    the engine answers that it is running at every turn, [main] is still
    in its loop when the schedule ends, with the flag true, one sleep of
    100 ms per turn behind it and no teardown call made. *)
Theorem session_polls_until_an_event
    (env : Collaborators) (sched : Schedule) (argv : list string)
    (s1 : State) (p : string) (w : WavFile) :
  parse_command_line_arguments env argv initial_state = Next tt s1 ->
  input_file_path s1 = Some p ->
  is_wav_file env p = true ->
  get_track env = true ->
  read_wav_file env p = Some w ->
  existsb (fires true) (after_signal_install sched) = false ->
  existsb (fires true) (after_play sched) = false ->
  forallb uneventful (ticks sched) = true ->
  let r := main env sched argv in
  fst r = Polling
  /\ running (snd r) = true
  /\ teardown_calls (trace (snd r)) = []
  /\ filter is_sleep (trace (snd r))
     = repeat (SleepFor 100) (List.length (ticks sched)).
Proof.
  intros Hparse Hpath Hwav Htrack Hread H1 H2 Hall r. subst r.
  rewrite (main_playing _ sched _ _ _ _ Hparse Hpath Hwav Htrack Hread).
  destruct (at_loop_installed env sched p w s1) as [Hs Hc].
  pose proof (parsed_trace env argv s1 Hparse) as Fc.
  pose proof (at_loop_running env sched p w s1
                (parsed_running env argv s1 Hparse) H1 H2) as Hr.
  destruct (poll_loop_sleeps (ticks sched) (at_loop env sched p w s1)
              Hs Hc Hr Hall) as (s' & d & Hp & Hr' & Ht & Hq & Hn).
  unfold after_loop. rewrite Hp. cbn [fst snd].
  split; [reflexivity|]. split; [exact Hr'|]. rewrite Ht.
  destruct (quiet_facts d Hq) as (Td & _ & _).
  unfold teardown_calls in *. rewrite !filter_app, Td, Hn.
  rewrite !at_loop_plain; auto; try (now intros []).
Qed.

Lemma session_polls_until_an_event_witness :
  fst (main demo_env sched_uneventful ["prog"; "-i"; "valid.wav"]) = Polling
  /\ filter is_sleep
       (trace (snd (main demo_env sched_uneventful
                         ["prog"; "-i"; "valid.wav"])))
     = [SleepFor 100; SleepFor 100; SleepFor 100; SleepFor 100].
Proof.
  destruct (session_polls_until_an_event demo_env sched_uneventful
              ["prog"; "-i"; "valid.wav"]
              (with_input_file_path "valid.wav"
                 (scan_start ["prog"; "-i"; "valid.wav"]))
              "valid.wav" (WavHandle 0)
              eq_refl eq_refl eq_refl eq_refl eq_refl eq_refl eq_refl eq_refl)
    as (H1 & _ & _ & H4).
  split; [exact H1 | exact H4].
Defined.

(** The shape of a run together with its outcome. *)
Lemma main_shape_outcome env sched argv :
  exists x d,
    Forall quiet d
    /\ trace (snd (main env sched argv)) = d ++ exit_effects x
    /\ match x with
       | StillPolling => True
       | _ => fst (main env sched argv) = Returned 0
       end.
Proof.
  unfold main, main_body. unfold bind at 1.
  pose proof (session_setup_quiet env sched argv initial_state) as Hq.
  destruct (session_setup env sched argv initial_state) as [[] s1|h s1] eqn:Hs.
  - destruct (session_setup_installed _ _ _ _ _ Hs) as [Hi _].
    destruct Hq as [d0 T0 F0 _ _ _]. simpl in T0.
    destruct (poll_loop_shape (ticks sched) s1 Hi)
      as (x & d & st & Fd & Hr & Ht).
    exists x, (d0 ++ d). split; [apply Forall_app; auto|].
    unfold bind, halt. rewrite Hr.
    destruct x; cbn [exit_result fst snd];
      (split; [rewrite Ht, T0; now rewrite app_assoc
              | rewrite ?Hs, ?Hr; cbn [exit_result fst]; auto]).
  - destruct Hq as [d0 T0 F0 _ _ _]. simpl in T0, F0.
    exists StillPolling, d0. cbn [snd exit_effects].
    rewrite app_nil_r. auto.
Qed.

(** X20.  Leaving the loop is always a success: a run in which the loop
    read the flag as false, or the engine answered that it is not running,
    returns 0 from [main]; and the two do not both happen. *)
Theorem leaving_the_loop_returns_0
    (env : Collaborators) (sched : Schedule) (argv : list string) :
  let r := main env sched argv in
  (flag_seen_false (trace (snd r)) || engine_seen_down (trace (snd r)))%bool
  = true ->
  fst r = Returned 0
  /\ (flag_seen_false (trace (snd r)) && engine_seen_down (trace (snd r)))%bool
     = false.
Proof.
  cbv zeta.
  destruct (main_shape_outcome env sched argv) as (x & d & Fd & -> & Hx).
  destruct (quiet_facts d Fd) as (_ & F & E).
  unfold flag_seen_false, engine_seen_down in *.
  rewrite !existsb_app, F, E.
  destruct x; cbn; intro H; auto; discriminate.
Qed.

Lemma leaving_the_loop_returns_0_witness :
  fst (main demo_env sched_engine_down ["prog"; "-i"; "valid.wav"])
  = Returned 0.
Proof.
  refine (proj1 (leaving_the_loop_returns_0 demo_env sched_engine_down
                   ["prog"; "-i"; "valid.wav"] _)).
  vm_compute. reflexivity.
Defined.

(** X21.  An output-device option whose id resolves is recorded and the
    scan goes on: when the token at index [k + 1] is
    "--set-audio-output"/"-o" and the next token reads as a number whose
    lookup returns a device of that id, the turn prints "Selected Audio
    Output Device: ..." and stores the id, replacing any id stored before
    and leaving the input path alone; the scan continues with the very
    next token. *)
Theorem known_output_device_is_recorded
    (env : Collaborators) (argv : list string) (k count : nat)
    (opt a : string) (v : Z) (s : State) :
  nth_error argv (S k) = Some opt ->
  is_output_option opt = true ->
  nth_error argv (S (S k)) = Some a ->
  stoi a = inr v ->
  id (get_audio_device env (to_unsigned v)) = to_unsigned v ->
  scan env argv (S k) (S count) s
  = scan env argv (S (S k)) count (with_audio_output env (to_unsigned v) s)
  /\ audio_output_device_id (with_audio_output env (to_unsigned v) s)
     = Some (to_unsigned v)
  /\ input_file_path (with_audio_output env (to_unsigned v) s)
     = input_file_path s.
Proof.
  intros Hopt Hout Harg Hv Hid. split; [|split; reflexivity].
  cbn [scan]. unfold bind, scan_at. rewrite Hopt.
  replace (S k + 1)%nat with (S (S k)) by lia.
  rewrite Harg, (dispatch_output_option env opt _ Hout).
  now rewrite (set_audio_output_known env a v s Hv Hid).
Qed.

Lemma known_output_device_is_recorded_witness :
  scan demo_env ["prog"; "-o"; "0"; "x"] 1 2
       (scan_start ["prog"; "-o"; "0"; "x"])
  = scan demo_env ["prog"; "-o"; "0"; "x"] 2 1
         (with_audio_output demo_env 0 (scan_start ["prog"; "-o"; "0"; "x"])).
Proof.
  exact (proj1 (known_output_device_is_recorded demo_env
                  ["prog"; "-o"; "0"; "x"] 0 1 "-o" "0" 0
                  (scan_start ["prog"; "-o"; "0"; "x"])
                  eq_refl eq_refl eq_refl eq_refl eq_refl)).
Defined.

(** * The Shutdown Flag, run by run *)

Lemma written_by_handlers_nil : written_by_handlers [].
Proof. exists []. split; [constructor | reflexivity]. Qed.

Lemma written_by_handlers_app d1 d2 :
  written_by_handlers d1 -> written_by_handlers d2 ->
  written_by_handlers (d1 ++ d2).
Proof.
  intros (m1 & F1 & E1) (m2 & F2 & E2). exists (m1 ++ m2). split.
  - apply Forall_app. auto.
  - now rewrite filter_app, flat_map_app, E1, E2.
Qed.

Lemma written_by_handlers_plain e :
  is_flag_event e = false -> written_by_handlers [e].
Proof.
  intro He. exists []. split; [constructor|].
  cbn [filter flat_map]. now rewrite He.
Qed.

Lemma written_by_handlers_run m :
  is_handler_log (Log INFO m) = true -> written_by_handlers (handler_run m).
Proof.
  intro Hm. exists [m]. split; [now constructor|].
  unfold handler_run, is_flag_event. cbn [filter flat_map is_flag_write orb].
  rewrite Hm. cbn [orb app]. reflexivity.
Qed.

#[local] Instance handlers_write_preorder : PreOrder handlers_write.
Proof.
  split.
  - intro s. exists []. split;
      [now rewrite app_nil_r | apply written_by_handlers_nil].
  - intros s1 s2 s3 (d1 & T1 & N1) (d2 & T2 & N2).
    exists (d1 ++ d2). split.
    + now rewrite T2, T1, <- app_assoc.
    + now apply written_by_handlers_app.
Qed.

(** ** The primitive steps: none of them writes the flag or logs a handler
    line *)

Lemma handler_free_emit e :
  is_flag_event e = false -> follows handlers_write (emit e).
Proof.
  intros He s. exists [e]. split; [reflexivity|].
  now apply written_by_handlers_plain.
Qed.

Lemma handler_free_read_running : follows handlers_write read_running.
Proof.
  intro s. exists [ReadRunning (running s)]. split; [reflexivity|].
  now apply written_by_handlers_plain.
Qed.

Lemma handler_free_install_sigint_handler :
  follows handlers_write install_sigint_handler.
Proof.
  intro s. exists [SignalInstall]. split; [reflexivity|].
  now apply written_by_handlers_plain.
Qed.

Lemma handler_free_install_event_callback :
  follows handlers_write install_event_callback.
Proof.
  intro s. exists [TrackSetEventCallback]. split; [reflexivity|].
  now apply written_by_handlers_plain.
Qed.

Lemma handler_free_set_program_name p :
  follows handlers_write (set_program_name p).
Proof.
  intro s. exists []. split;
    [simpl; now rewrite app_nil_r | apply written_by_handlers_nil].
Qed.

Lemma handler_free_set_input_file_path p :
  follows handlers_write (set_input_file_path p).
Proof.
  intro s. exists []. split;
    [simpl; now rewrite app_nil_r | apply written_by_handlers_nil].
Qed.

Lemma handler_free_set_audio_output_device_id d :
  follows handlers_write (set_audio_output_device_id d).
Proof.
  intro s. exists []. split;
    [simpl; now rewrite app_nil_r | apply written_by_handlers_nil].
Qed.

(** ** The two handlers: one line, then one write *)

Lemma sigint_handler_writes_once : follows handlers_write sigint_handler.
Proof.
  intro s. rewrite sigint_handler_run.
  exists (handler_run "SIGINT received, shutting down...").
  split; [reflexivity|]. now apply written_by_handlers_run.
Qed.

Lemma track_event_callback_writes_once ev :
  follows handlers_write (track_event_callback ev).
Proof.
  intro s. destruct ev as [|code].
  - rewrite playback_finished_run.
    exists (handler_run "Track playback finished.").
    split; [reflexivity|]. now apply written_by_handlers_run.
  - exists []. split;
      [simpl; now rewrite app_nil_r | apply written_by_handlers_nil].
Qed.

Create HintDb handlers.
#[local] Hint Resolve
  handler_free_read_running handler_free_install_sigint_handler
  handler_free_install_event_callback handler_free_set_program_name
  handler_free_set_input_file_path handler_free_set_audio_output_device_id
  sigint_handler_writes_once track_event_callback_writes_once : handlers.

(** Splits a composed computation down to its primitive steps and to the
    two handlers. *)
Ltac handlers_tac :=
  repeat (intros;
    match goal with
    | |- follows _ (bind _ _) => apply follows_bind
    | |- follows _ (for_each _ _) => apply follows_for_each
    | |- follows _ (ret _) => apply follows_ret
    | |- follows _ (halt _) => apply follows_halt
    | |- follows _ (get _) => apply follows_get
    | |- follows _ (emit _) => apply handler_free_emit; reflexivity
    | |- follows _ (if ?b then _ else _) => destruct b
    | |- follows _ (match ?x with _ => _ end) => destruct x
    | |- follows _ (let _ := _ in _) => cbv zeta
    | |- follows _ _ => solve [auto with handlers]
    end).

(** ** Each part of the program *)

Lemma parse_writes_per_handler env argv :
  follows handlers_write (parse_command_line_arguments env argv).
Proof.
  assert (Hhelp : forall arg, follows handlers_write (help arg)).
  { intro arg. unfold help, cout, std_exit. handlers_tac. }
  assert (Hscan : forall count i,
             follows handlers_write (scan env argv i count)).
  { induction count as [|c IH]; intro i; cbn [scan].
    - apply follows_ret.
    - apply follows_bind; [|intros _; apply IH].
      unfold scan_at. destruct (nth_error argv i) as [t|]; [|apply follows_ret].
      rewrite dispatch_commands.
      unfold version_action, input_file_action, list_audio_devices_action,
        set_audio_output_action, std_string, cout, cerr, std_exit.
      handlers_tac. }
  unfold parse_command_line_arguments.
  destruct (List.length argv <? 2)%nat; [apply Hhelp|].
  apply follows_bind; [apply handler_free_set_program_name|].
  intros _. apply Hscan.
Qed.

Lemma deliver_all_writes_per_handler arrivals :
  follows handlers_write (deliver_all arrivals).
Proof. unfold deliver_all, deliver. handlers_tac. Qed.

Lemma session_setup_writes_per_handler env sched argv :
  follows handlers_write (session_setup env sched argv).
Proof.
  unfold session_setup, check_input_file, start_playback, LOG_INFO, LOG_ERROR.
  pose proof (parse_writes_per_handler env argv).
  pose proof (deliver_all_writes_per_handler (after_signal_install sched)).
  pose proof (deliver_all_writes_per_handler (after_play sched)).
  handlers_tac.
Qed.

Lemma poll_loop_writes_per_handler ts :
  follows handlers_write (poll_loop ts).
Proof.
  induction ts as [|t ts IH]; cbn [poll_loop].
  - apply follows_halt.
  - unfold LOG_INFO.
    pose proof (deliver_all_writes_per_handler (before_flag_read t)).
    pose proof (deliver_all_writes_per_handler (during_sleep t)).
    handlers_tac.
Qed.

Lemma main_body_writes_per_handler env sched argv :
  follows handlers_write (main_body env sched argv).
Proof.
  unfold main_body.
  pose proof (session_setup_writes_per_handler env sched argv).
  pose proof (poll_loop_writes_per_handler (ticks sched)).
  handlers_tac.
Qed.

Lemma existsb_filter {A} (f g : A -> bool) (l : list A) :
  (forall x, f x = true -> g x = true) ->
  existsb f (filter g l) = existsb f l.
Proof.
  intro Hfg. induction l as [|x l IH]; cbn [existsb filter]; auto.
  destruct (g x) eqn:Hg; cbn [existsb]; rewrite IH; auto.
  destruct (f x) eqn:Hf; auto. apply Hfg in Hf. congruence.
Qed.

(** Where the handlers do the writing, the flag was written exactly when a
    handler line was logged. *)
Lemma written_by_handlers_exists d :
  written_by_handlers d ->
  existsb is_handler_log d = existsb is_flag_write d.
Proof.
  intros (ms & F & E).
  rewrite <- (existsb_filter is_handler_log is_flag_event d),
          <- (existsb_filter is_flag_write is_flag_event d), E.
  - destruct F as [|m ms Hm _]; [reflexivity|].
    cbn [flat_map handler_run app existsb is_flag_write].
    rewrite Hm. cbn [orb]. reflexivity.
  - intros x Hx. unfold is_flag_event. now rewrite Hx.
  - intros x Hx. unfold is_flag_event. rewrite Hx. apply orb_true_r.
Qed.

(** Every run: the handlers do the writing. *)
Lemma main_written_by_handlers env sched argv :
  written_by_handlers (trace (snd (main env sched argv))).
Proof.
  rewrite snd_main.
  destruct (main_body_writes_per_handler env sched argv initial_state)
    as (d & T & N).
  cbn [trace initial_state app] in T. now rewrite T.
Qed.

(** C1, counterexample.  A session that plays and whose loop ends because
    the engine thread reports not running: [main] returns 0 and the flag was
    never written; it is still true and has made no transition. *)
Lemma engine_down_session_leaves_flag_true :
  let r := main demo_env sched_engine_down ["prog"; "-i"; "valid.wav"] in
  fst r = Returned 0
  /\ In TrackPlay (trace (snd r))
  /\ running (snd r) = true
  /\ flag_transitions true (trace (snd r)) = 0%nat.
Proof. vm_compute. intuition auto. Qed.

(** C1, amended.  The flag starts true.  In every run the flag is written
    by the handlers and by nothing else: the writes and the handler lines of
    the run form a sequence of handler runs, the interrupt handler's or the
    playback-finished callback's, each its line directly followed by one
    write of false.  At the end of the run the flag is false exactly when a
    handler has run, and it has changed value exactly once (true to false,
    at the write of the first handler run) when a handler has run and never
    when none has.  Arrivals delivered in a state where the interrupt
    handler is installed all return; each trigger among them runs its
    handler, and the flag is true afterwards exactly when it was true and
    none of them is a trigger; either handler leaves it false. *)
Theorem shutdown_flag_changes_once_a_handler_runs
    (env : Collaborators) (sched : Schedule) (argv : list string)
    (arrivals : list Async) (s0 : State) :
  sigint_handler_installed s0 = true ->
  let s := snd (main env sched argv) in
  running initial_state = true
  /\ Forall writes_false (trace s)
  /\ written_by_handlers (trace s)
  /\ running s = negb (existsb is_handler_log (trace s))
  /\ flag_transitions true (trace s)
     = (if existsb is_handler_log (trace s) then 1 else 0)%nat
  /\ deliver_all arrivals s0 = Next tt (after_arrivals arrivals s0)
  /\ trace (after_arrivals arrivals s0)
     = trace s0
       ++ flat_map (handler_effects (event_callback_installed s0)) arrivals
  /\ running (after_arrivals arrivals s0)
     = (running s0
        && negb (existsb (fires (event_callback_installed s0)) arrivals))%bool
  /\ running (final (sigint_handler s0)) = false
  /\ running (final (track_event_callback PlaybackFinished s0)) = false.
Proof.
  intros Hs0 s.
  pose proof (main_written_by_handlers env sched argv) as Hw. fold s in Hw.
  rewrite (written_by_handlers_exists _ Hw).
  split; [reflexivity|].
  assert (Hrun : extends writes_false initial_state s).
  { subst s. rewrite snd_main.
    apply respects_main_body; unfold writes_false; intros; discriminate. }
  destruct Hrun as [d T F R _ _].
  cbn [trace initial_state app running andb] in T, R.
  split; [now rewrite T|].
  split; [exact Hw|].
  split; [now rewrite T, R|].
  split; [rewrite T; now apply flag_transitions_true|].
  split; [now apply deliver_all_run|].
  split; [reflexivity|].
  split; [reflexivity|].
  split; [now rewrite sigint_handler_run | now rewrite playback_finished_run].
Qed.

Lemma shutdown_flag_changes_once_a_handler_runs_witness :
  let s := snd (main demo_env sched_finished_then_sigint
                  ["prog"; "-i"; "valid.wav"]) in
  let s0 := snd (main demo_env sched_engine_down ["prog"; "-i"; "valid.wav"]) in
  flag_transitions true (trace s) = 1%nat
  /\ running s = false
  /\ running (after_arrivals [TrackEvent PlaybackFinished; SIGINT] s0) = false.
Proof.
  cbv zeta.
  destruct (shutdown_flag_changes_once_a_handler_runs demo_env
              sched_finished_then_sigint ["prog"; "-i"; "valid.wav"]
              [TrackEvent PlaybackFinished; SIGINT]
              (snd (main demo_env sched_engine_down
                      ["prog"; "-i"; "valid.wav"]))
              eq_refl)
    as (_ & _ & _ & Hr & Ht & _ & _ & Ha & _).
  split; [rewrite Ht; vm_compute; reflexivity|].
  split; [rewrite Hr; vm_compute; reflexivity|].
  rewrite Ha. vm_compute. reflexivity.
Defined.
